(** * Mern-Chat-App: message status, reactions, conversations and presence

    A shallow embedding of the Mongoose models [Message] and [Conversation]
    (models/Message.js, models/Conversation.js) and of the Socket.io handler
    [setupSocketHandlers] (io/socketHandler.js), followed by the properties
    of the delivery/presence core that hold, or fail, on that code.

    Conventions of the embedding:
    - an [ObjectId] is represented by the string its [toString()] returns;
    - a [Date] is a number of milliseconds; every evaluation of [new Date()]
      in the source is an explicit argument of the embedded function;
    - a document method [m] that mutates [this] and returns a promise becomes
      a function returning the pair (document afterwards, value the promise
      resolves to);
    - a collection is the list of its documents in insertion order;
    - the [createdAt]/[updatedAt] stamps of the [timestamps: true] schema
      option are kept beside the schema paths of a message, in
      [Message.Stored]; [Message.runStored] is a method call on such a
      document. *)

From stdpp Require Import base option list strings gmap.
From Stdlib Require Import ZArith Sorted.

Local Open Scope Z_scope.

Set Warnings "-clear-no-such-hyp".

(** ** Shared vocabulary *)

Definition ObjectId : Type := string.
Definition Date : Type := Z.

(** The value a returned promise resolves to. *)
Inductive Resolved (D : Type) : Type :=
  | Undefined
  | Document (d : D)
  | Boolean (b : bool).
Arguments Undefined {D}.
Arguments Document {D} d.
Arguments Boolean {D} b.

(** A query condition on one path: [path: v] or [path: { $ne: v }]. *)
Inductive Cond (A : Type) : Type :=
  | Is (v : A)
  | Ne (v : A).
Arguments Is {A} v.
Arguments Ne {A} v.

Definition holds {A : Type} `{EqDecision A} (c : option (Cond A)) (x : A) : bool :=
  match c with
  | None => true
  | Some (Is v) => bool_decide (x = v)
  | Some (Ne v) => negb (bool_decide (x = v))
  end.

(** ** models/Message.js *)

Module Message.

(** Modelled from the spec: config/constants.js is not part of the sources;
    the spec gives [status] the three values sent, delivered, read and
    [type] the four values text, image, emoji, file. *)
Inductive MESSAGE_STATUSES : Type := SENT | DELIVERED | READ.
Inductive MESSAGE_TYPES : Type := TEXT | IMAGE | EMOJI | FILE.

#[global] Instance MESSAGE_STATUSES_eq_dec : EqDecision MESSAGE_STATUSES.
Proof. solve_decision. Defined.
#[global] Instance MESSAGE_TYPES_eq_dec : EqDecision MESSAGE_TYPES.
Proof. solve_decision. Defined.

Record FileMetadata : Type := {
  filename : option string;
  size : option Z;
  mimeType : option string
}.

#[global] Instance FileMetadata_eq_dec : EqDecision FileMetadata.
Proof. solve_decision. Defined.

Record Reaction : Type := {
  userId : ObjectId;
  emoji : string
}.

#[global] Instance Reaction_eq_dec : EqDecision Reaction.
Proof. solve_decision. Defined.

Record Message : Type := {
  _id : ObjectId;
  senderId : ObjectId;
  receiverId : ObjectId;
  conversationId : ObjectId;
  content : string;
  messageType : MESSAGE_TYPES;
  imageUrl : option string;
  fileUrl : option string;
  fileMetadata : FileMetadata;
  status : MESSAGE_STATUSES;
  deliveredAt : option Date;
  readAt : option Date;
  isDeleted : bool;
  isEdited : bool;
  editedAt : option Date;
  replyTo : option ObjectId;
  reactions : list Reaction
}.

(** Assignments [this.status = s], [this.deliveredAt = d], ... *)
Definition set_status (s : MESSAGE_STATUSES) (this : Message) : Message :=
  {| _id := _id this; senderId := senderId this; receiverId := receiverId this;
     conversationId := conversationId this; content := content this;
     messageType := messageType this; imageUrl := imageUrl this;
     fileUrl := fileUrl this; fileMetadata := fileMetadata this;
     status := s;
     deliveredAt := deliveredAt this; readAt := readAt this;
     isDeleted := isDeleted this; isEdited := isEdited this;
     editedAt := editedAt this; replyTo := replyTo this;
     reactions := reactions this |}.

Definition set_deliveredAt (d : option Date) (this : Message) : Message :=
  {| _id := _id this; senderId := senderId this; receiverId := receiverId this;
     conversationId := conversationId this; content := content this;
     messageType := messageType this; imageUrl := imageUrl this;
     fileUrl := fileUrl this; fileMetadata := fileMetadata this;
     status := status this;
     deliveredAt := d; readAt := readAt this;
     isDeleted := isDeleted this; isEdited := isEdited this;
     editedAt := editedAt this; replyTo := replyTo this;
     reactions := reactions this |}.

Definition set_readAt (d : option Date) (this : Message) : Message :=
  {| _id := _id this; senderId := senderId this; receiverId := receiverId this;
     conversationId := conversationId this; content := content this;
     messageType := messageType this; imageUrl := imageUrl this;
     fileUrl := fileUrl this; fileMetadata := fileMetadata this;
     status := status this;
     deliveredAt := deliveredAt this; readAt := d;
     isDeleted := isDeleted this; isEdited := isEdited this;
     editedAt := editedAt this; replyTo := replyTo this;
     reactions := reactions this |}.

Definition set_reactions (rs : list Reaction) (this : Message) : Message :=
  {| _id := _id this; senderId := senderId this; receiverId := receiverId this;
     conversationId := conversationId this; content := content this;
     messageType := messageType this; imageUrl := imageUrl this;
     fileUrl := fileUrl this; fileMetadata := fileMetadata this;
     status := status this;
     deliveredAt := deliveredAt this; readAt := readAt this;
     isDeleted := isDeleted this; isEdited := isEdited this;
     editedAt := editedAt this; replyTo := replyTo this;
     reactions := rs |}.

(** Virtual [isRead]. *)
Definition isRead (this : Message) : bool :=
  bool_decide (status this = READ) || bool_decide (readAt this ≠ None).

(** [this.isModified("status")]: the status differs from the one of the
    document as it was loaded from the store. *)
Definition isModified_status (persisted this : Message) : bool :=
  negb (bool_decide (status this = status persisted)).

(** The pre-save hook. Its two branches test for different values of
    [this.status], so at most one of the two [new Date()] is evaluated in a
    run of the hook: [now] is that reading. *)
Definition pre_save (now : Date) (persisted this : Message) : Message :=
  let this :=
    if isModified_status persisted this && bool_decide (status this = DELIVERED)
    then set_deliveredAt (Some now) this else this in
  let this :=
    if isModified_status persisted this && bool_decide (status this = READ)
    then set_readAt (Some now) this else this in
  this.

(** [this.save()] on a document loaded as [persisted], on the schema paths:
    the hook runs, the result is written and the promise resolves to it.
    The stamp that the [timestamps] option adds to a save is in [runStored]
    below. *)
Definition save (hookNow : Date) (persisted this : Message) : Message * Resolved Message :=
  let saved := pre_save hookNow persisted this in
  (saved, Document saved).

Definition markAsDelivered (now hookNow : Date) (this : Message) : Message * Resolved Message :=
  if bool_decide (status this = SENT) then
    let this' := set_status DELIVERED this in
    let this' := set_deliveredAt (Some now) this' in
    save hookNow this this'
  else (this, Undefined).

Definition markAsRead (now hookNow : Date) (this : Message) : Message * Resolved Message :=
  if bool_decide (status this ≠ READ) then
    let this' := set_status READ this in
    let this' := set_readAt (Some now) this' in
    save hookNow this this'
  else (this, Undefined).

(** The callback of [find]/[filter] in the reaction methods:
    [r.userId.toString() === userId.toString() && r.emoji === emoji]. *)
Definition sameReaction (u : ObjectId) (e : string) (r : Reaction) : bool :=
  bool_decide (userId r = u) && bool_decide (emoji r = e).

Definition addReaction (hookNow : Date) (u : ObjectId) (e : string) (this : Message)
  : Message * Resolved Message :=
  let existingReaction := List.find (sameReaction u e) (reactions this) in
  if negb (bool_decide (is_Some existingReaction)) then
    (this, Undefined)
  else
    let this' := set_reactions (reactions this ++ [{| userId := u; emoji := e |}]) this in
    save hookNow this this'.

Definition removeReaction (hookNow : Date) (u : ObjectId) (e : string) (this : Message)
  : Message * Resolved Message :=
  let this' :=
    set_reactions (List.filter (fun r => negb (sameReaction u e r)) (reactions this)) this in
  save hookNow this this'.

(** Query filters of the two statics: conditions on the paths they mention. *)
Record Filter : Type := {
  on_conversationId : option (Cond ObjectId);
  on_receiverId : option (Cond ObjectId);
  on_status : option (Cond MESSAGE_STATUSES);
  on_isDeleted : option (Cond bool)
}.

Definition matches (q : Filter) (m : Message) : bool :=
  holds (on_conversationId q) (conversationId m)
  && holds (on_receiverId q) (receiverId m)
  && holds (on_status q) (status m)
  && holds (on_isDeleted q) (isDeleted m).

Definition countDocuments (q : Filter) (coll : list Message) : Z :=
  Z.of_nat (length (List.filter (matches q) coll)).

(** [updateMany(filter, { status, readAt })]: every matching document gets
    the two paths set; document middleware (the pre-save hook) does not run. *)
Definition updateMany (q : Filter) (newStatus : MESSAGE_STATUSES) (newReadAt : Date)
    (coll : list Message) : list Message :=
  List.map (fun m => if matches q m
                     then set_readAt (Some newReadAt) (set_status newStatus m)
                     else m) coll.

(** The filter of [getUnreadCount]. *)
Definition unreadFor (user : ObjectId) : Filter :=
  {| on_conversationId := None;
     on_receiverId := Some (Is user);
     on_status := Some (Ne READ);
     on_isDeleted := Some (Is false) |}.

Definition getUnreadCount (user : ObjectId) (coll : list Message) : Z :=
  countDocuments (unreadFor user) coll.

(** The filter of [markConversationAsRead]. *)
Definition unreadIn (conversation user : ObjectId) : Filter :=
  {| on_conversationId := Some (Is conversation);
     on_receiverId := Some (Is user);
     on_status := Some (Ne READ);
     on_isDeleted := None |}.

Definition markConversationAsRead (now : Date) (conversation user : ObjectId)
    (coll : list Message) : list Message :=
  updateMany (unreadIn conversation user) READ now coll.

(** The operations on a single message, and the status order
    sent < delivered < read. *)
Inductive Op : Type :=
  | MarkAsDelivered (now hookNow : Date)
  | MarkAsRead (now hookNow : Date)
  | AddReaction (hookNow : Date) (u : ObjectId) (e : string)
  | RemoveReaction (hookNow : Date) (u : ObjectId) (e : string).

Definition run (op : Op) (this : Message) : Message * Resolved Message :=
  match op with
  | MarkAsDelivered now hookNow => markAsDelivered now hookNow this
  | MarkAsRead now hookNow => markAsRead now hookNow this
  | AddReaction hookNow u e => addReaction hookNow u e this
  | RemoveReaction hookNow u e => removeReaction hookNow u e this
  end.

Definition rank (s : MESSAGE_STATUSES) : nat :=
  match s with SENT => 0 | DELIVERED => 1 | READ => 2 end.

(** A message as the schema defaults leave it: status sent, no timestamps,
    no reactions. *)
Definition fresh (id sender receiver conversation : ObjectId) (text : string) : Message :=
  {| _id := id; senderId := sender; receiverId := receiver;
     conversationId := conversation; content := text;
     messageType := TEXT; imageUrl := None; fileUrl := None;
     fileMetadata := {| filename := None; size := None; mimeType := None |};
     status := SENT; deliveredAt := None; readAt := None;
     isDeleted := false; isEdited := false; editedAt := None;
     replyTo := None; reactions := [] |}.

(** A sequence of operations on one message, oldest first. *)
Definition runAll (ops : list Op) (this : Message) : Message :=
  foldl (fun m op => (run op m).1) this ops.

(** The timestamps agree with the status: [readAt] is set exactly on a read
    message, and a message that is still sent has no [deliveredAt]. *)
Definition coherent (m : Message) : Prop :=
  (status m = READ ↔ readAt m ≠ None)
  ∧ (status m = SENT → deliveredAt m = None).

#[global] Instance Message_eq_dec : EqDecision Message.
Proof. solve_decision. Defined.

(** The schema option [timestamps: true]: a stored message has, beside its
    schema paths, the stamps [createdAt] and [updatedAt]. *)
Record Stored : Type := {
  paths : Message;
  createdAt : Date;
  updatedAt : Date
}.

(** [this.isModified()]: some path differs from the document as loaded.
    (The hook of the schema writes a timestamp only when the status was
    modified, so the saved paths differ from the loaded ones exactly when a
    path was modified before the hooks ran.) *)
Definition isModified (persisted this : Message) : bool :=
  negb (bool_decide (this = persisted)).

(** A method call on a stored message. When the method saves (its promise
    resolves to the saved document), the pre-save hook that the
    [timestamps] option installs sets [updatedAt] to [stampNow], its
    reading of the clock, provided a path was modified; [createdAt] is
    written on insertion only. A call that returns without saving leaves
    the stored message as it is. *)
Definition runStored (op : Op) (stampNow : Date) (d : Stored) : Stored * Resolved Stored :=
  match (run op (paths d)).2 with
  | Document saved =>
      let d' := {| paths := saved;
                   createdAt := createdAt d;
                   updatedAt := if isModified (paths d) saved then stampNow
                                else updatedAt d |} in
      (d', Document d')
  | _ => (d, Undefined)
  end.

End Message.

(** ** models/Conversation.js *)

Module Conversation.

Inductive ConversationType : Type := direct | group.

#[global] Instance ConversationType_eq_dec : EqDecision ConversationType.
Proof. solve_decision. Defined.

(** [_id] is the rank of the document among the ids the driver generated. *)
Record Conversation : Type := {
  _id : nat;
  participants : list ObjectId;
  lastMessage : option ObjectId;
  lastMessageTime : Date;
  name : option string;
  avatar : option string;
  type : ConversationType;
  mutedBy : list ObjectId;
  archivedBy : list ObjectId;
  messageCount : Z;
  createdBy : option ObjectId
}.

#[global] Instance Conversation_eq_dec : EqDecision Conversation.
Proof. solve_decision. Defined.

Definition set_participants (ps : list ObjectId) (this : Conversation) : Conversation :=
  {| _id := _id this; participants := ps; lastMessage := lastMessage this;
     lastMessageTime := lastMessageTime this; name := name this;
     avatar := avatar this; type := type this; mutedBy := mutedBy this;
     archivedBy := archivedBy this; messageCount := messageCount this;
     createdBy := createdBy this |}.

Definition set_mutedBy (us : list ObjectId) (this : Conversation) : Conversation :=
  {| _id := _id this; participants := participants this;
     lastMessage := lastMessage this;
     lastMessageTime := lastMessageTime this; name := name this;
     avatar := avatar this; type := type this; mutedBy := us;
     archivedBy := archivedBy this; messageCount := messageCount this;
     createdBy := createdBy this |}.

Definition set_archivedBy (us : list ObjectId) (this : Conversation) : Conversation :=
  {| _id := _id this; participants := participants this;
     lastMessage := lastMessage this;
     lastMessageTime := lastMessageTime this; name := name this;
     avatar := avatar this; type := type this; mutedBy := mutedBy this;
     archivedBy := us; messageCount := messageCount this;
     createdBy := createdBy this |}.

(** [a.toString().localeCompare(b.toString())]. On the strings an ObjectId
    prints as (24 lower-case hexadecimal digits) the collation order is the
    lexicographic order of the characters, which is what is embedded. *)
Definition localeCompare (a b : ObjectId) : Z :=
  match String.compare a b with
  | Lt => -1
  | Eq => 0
  | Gt => 1
  end.

(** [Array.prototype.sort(compareFn)]: a stable sort; [x] goes before [y]
    unless [compareFn x y > 0]. *)
Fixpoint sort_insert {A : Type} (compareFn : A → A → Z) (x : A) (l : list A) : list A :=
  match l with
  | [] => [x]
  | y :: l' =>
      if compareFn x y <=? 0 then x :: y :: l'
      else y :: sort_insert compareFn x l'
  end.

Definition Array_sort {A : Type} (compareFn : A → A → Z) (l : list A) : list A :=
  foldr (sort_insert compareFn) [] l.

(** The pre-save hook: the two participants of a direct conversation are
    sorted. *)
Definition pre_save (this : Conversation) : Conversation :=
  if bool_decide (type this = direct) && bool_decide (length (participants this) = 2%nat)
  then set_participants (Array_sort localeCompare (participants this)) this
  else this.

Definition save (this : Conversation) : Conversation * Resolved Conversation :=
  let saved := pre_save this in
  (saved, Document saved).

(** The collection, with the number of ids generated so far. *)
Record Store : Type := {
  docs : list Conversation;
  nextId : nat
}.

Definition empty : Store := {| docs := []; nextId := 0 |}.

Inductive StoreError : Type := DuplicateKey.

(** The query [{ participants: { $all: ps }, type: "direct" }]. *)
Definition all_participants_direct (ps : list ObjectId) (c : Conversation) : bool :=
  forallb (fun p => bool_decide (p ∈ participants c)) ps
  && bool_decide (type c = direct).

(** [findOne]: the first matching document. *)
Definition findOne (q : Conversation → bool) (s : Store) : option Conversation :=
  List.find q (docs s).

(** Modelled from the spec: the store is an external collaborator; its
    uniqueness constraint (the index [unique_participants_direct_chat] on
    [participants]) admits at most one conversation per participant pair:
    an insert is rejected when a stored document has the same participants. *)
Definition unique_participants_direct_chat (doc : Conversation) (s : Store) : bool :=
  forallb (fun c => negb (bool_decide (participants c = participants doc))) (docs s).

Section Schema.

(** [lastMessageTime] has the default [new Date()], evaluated once, when
    the schema is defined. *)
Variable schemaDate : Date.

(** [create({ participants, type, metadata: { createdBy } })]: the schema
    defaults are filled in, the pre-save hook runs, and the document is
    inserted unless the unique index rejects it. *)
Definition create (ps : list ObjectId) (ty : ConversationType) (by_ : ObjectId)
    (s : Store) : (StoreError + Conversation) * Store :=
  let doc := pre_save {| _id := nextId s; participants := ps;
                         lastMessage := None; lastMessageTime := schemaDate;
                         name := None; avatar := None; type := ty;
                         mutedBy := []; archivedBy := [];
                         messageCount := 0; createdBy := Some by_ |} in
  if unique_participants_direct_chat doc s
  then (inr doc, {| docs := docs s ++ [doc]; nextId := S (nextId s) |})
  else (inl DuplicateKey, s).

(** [findOrCreateConversation] suspends at its two [await]s. [others] is
    what the other writers do to the collection between the lookup and the
    insert. The [catch] block logs the error and throws it again, so an
    error of [create] is the result of the call. *)
Definition findOrCreateConversation_among (others : Store → Store)
    (userId1 userId2 : ObjectId) (s : Store) : (StoreError + Conversation) * Store :=
  let participants := Array_sort localeCompare [userId1; userId2] in
  let conversation := findOne (all_participants_direct participants) s in
  let s := others s in
  match conversation with
  | Some conversation => (inr conversation, s)
  | None => create participants direct userId1 s
  end.

(** The call running alone. *)
Definition findOrCreateConversation (userId1 userId2 : ObjectId) (s : Store)
  : (StoreError + Conversation) * Store :=
  findOrCreateConversation_among (fun s => s) userId1 userId2 s.

(** The collection after a sequence of calls, starting from [s]. *)
Definition resolveAll (calls : list (ObjectId * ObjectId)) (s : Store) : Store :=
  foldl (fun s call => (findOrCreateConversation call.1 call.2 s).2) s calls.

End Schema.

(** A conversation in canonical form: direct, with two participants in
    lexicographic order of their id strings; and a collection in which all
    conversations are canonical and no two have the same participants. *)
Definition canonical (c : Conversation) : Prop :=
  type c = direct
  ∧ ∃ p q, participants c = [p; q] ∧ String.leb p q = true.

Definition consistent (s : Store) : Prop :=
  Forall canonical (docs s) ∧ NoDup (participants <$> docs s).

(** [this.mutedBy.indexOf(userId)]: index of the first occurrence, or -1. *)
Definition indexOf (userId : ObjectId) (l : list ObjectId) : Z :=
  match list_find (fun y => y = userId) l with
  | Some (i, _) => Z.of_nat i
  | None => -1
  end.

(** [array.splice(index, 1)] for an index in range. *)
Definition splice1 (index : Z) (l : list ObjectId) : list ObjectId :=
  delete (Z.to_nat index) l.

Definition toggleMute (userId : ObjectId) (this : Conversation)
  : Conversation * Resolved Conversation :=
  let index := indexOf userId (mutedBy this) in
  let this :=
    if index >? -1 then set_mutedBy (splice1 index (mutedBy this)) this
    else set_mutedBy (mutedBy this ++ [userId]) this in
  save this.

Definition toggleArchive (userId : ObjectId) (this : Conversation)
  : Conversation * Resolved Conversation :=
  let index := indexOf userId (archivedBy this) in
  let this :=
    if index >? -1 then set_archivedBy (splice1 index (archivedBy this)) this
    else set_archivedBy (archivedBy this ++ [userId]) this in
  save this.

Definition isMutedFor (userId : ObjectId) (this : Conversation) : bool :=
  existsb (fun id => bool_decide (id = userId)) (mutedBy this).

Definition isArchivedFor (userId : ObjectId) (this : Conversation) : bool :=
  existsb (fun id => bool_decide (id = userId)) (archivedBy this).

Definition getOtherParticipant (userId : ObjectId) (this : Conversation) : option ObjectId :=
  if bool_decide (type this ≠ direct) then None
  else List.find (fun id => negb (bool_decide (id = userId))) (participants this).

(** The query of [getUserConversations]:
    [{ participants: userId, archivedBy: { $ne: userId } }]. On an array
    path, [path: v] holds when the array contains [v], and
    [path: { $ne: v }] when it does not. *)
Definition listedFor (userId : ObjectId) (c : Conversation) : bool :=
  bool_decide (userId ∈ participants c)
  && negb (bool_decide (userId ∈ archivedBy c)).

(** The order of [.sort({ lastMessageTime: -1 })]. *)
Definition byLastMessageTimeDesc (x y : Conversation) : Z :=
  lastMessageTime y - lastMessageTime x.

(** [getUserConversations], without the two [populate] joins (the
    documents are returned as stored). The store does not fix the order of
    documents with equal [lastMessageTime]; the embedding keeps them in
    insertion order. *)
Definition getUserConversations (userId : ObjectId) (s : Store) : list Conversation :=
  Array_sort byLastMessageTimeDesc (List.filter (listedFor userId) (docs s)).

End Conversation.

(** ** io/socketHandler.js *)

Module SocketHandler.

(** A socket: its id and [socket.handshake.query.userId], which may be
    missing. *)
Record Socket : Type := {
  id : string;
  query_userId : option string
}.

#[global] Instance Socket_eq_dec : EqDecision Socket.
Proof. solve_decision. Defined.

Inductive UserStatus : Type := online | offline.

#[global] Instance UserStatus_eq_dec : EqDecision UserStatus.
Proof. solve_decision. Defined.

(** The payload of [MESSAGE_SEND]. *)
Record MessageData : Type := {
  receiverId : string;
  content : string;
  messageType : string
}.

(** Outgoing events with their payloads. *)
Inductive Event : Type :=
  | USER_ONLINE (userId : option string) (status : UserStatus) (timestamp : Date)
  | USER_OFFLINE (userId : option string) (status : UserStatus) (lastSeen : Date)
  | MESSAGE_RECEIVE (data : MessageData) (status : Message.MESSAGE_STATUSES)
  | USER_TYPING_to (userId : option string) (conversationId : string).

(** [io.emit(...)] reaches every socket, [io.to(socketId).emit(...)] one. *)
Inductive Emit : Type :=
  | io_emit (e : Event)
  | io_to_emit (socketId : string) (e : Event).

(** The module-level map [activeUsers] (userId -> socketId) and what has been
    emitted so far, oldest first. *)
Record State : Type := {
  activeUsers : gmap string string;
  emitted : list Emit
}.

Definition initial : State := {| activeUsers := ∅; emitted := [] |}.

(** [if (userId)]: a missing or empty string is falsy. *)
Definition truthy (userId : option string) : bool :=
  match userId with
  | Some u => negb (bool_decide (u = EmptyString))
  | None => false
  end.

Definition on_CONNECT (now : Date) (socket : Socket) (st : State) : State :=
  let userId := query_userId socket in
  match userId with
  | Some u =>
      if truthy userId then
        {| activeUsers := <[u := id socket]> (activeUsers st);
           emitted := emitted st ++ [io_emit (USER_ONLINE userId online now)] |}
      else st
  | None => st
  end.

Definition on_MESSAGE_SEND (socket : Socket) (data : MessageData) (st : State) : State :=
  let receiverSocketId := activeUsers st !! receiverId data in
  match receiverSocketId with
  | Some sid =>
      {| activeUsers := activeUsers st;
         emitted := emitted st ++ [io_to_emit sid (MESSAGE_RECEIVE data Message.DELIVERED)] |}
  | None => st
  end.

Definition on_USER_TYPING (socket : Socket) (conversationId receiver : string)
    (st : State) : State :=
  let receiverSocketId := activeUsers st !! receiver in
  match receiverSocketId with
  | Some sid =>
      {| activeUsers := activeUsers st;
         emitted := emitted st
                    ++ [io_to_emit sid (USER_TYPING_to (query_userId socket) conversationId)] |}
  | None => st
  end.

(** [activeUsers.delete(userId)] with a missing [userId] deletes nothing. *)
Definition on_DISCONNECT (now : Date) (socket : Socket) (st : State) : State :=
  let userId := query_userId socket in
  {| activeUsers := match userId with
                    | Some u => delete u (activeUsers st)
                    | None => activeUsers st
                    end;
     emitted := emitted st ++ [io_emit (USER_OFFLINE userId offline now)] |}.

(** What the transport delivers to the handlers installed by
    [setupSocketHandlers]. *)
Inductive Incoming : Type :=
  | CONNECT (now : Date) (socket : Socket)
  | MESSAGE_SEND (socket : Socket) (data : MessageData)
  | USER_TYPING (socket : Socket) (conversationId receiver : string)
  | DISCONNECT (now : Date) (socket : Socket).

Definition setupSocketHandlers (st : State) (i : Incoming) : State :=
  match i with
  | CONNECT now socket => on_CONNECT now socket st
  | MESSAGE_SEND socket data => on_MESSAGE_SEND socket data st
  | USER_TYPING socket conversationId receiver =>
      on_USER_TYPING socket conversationId receiver st
  | DISCONNECT now socket => on_DISCONNECT now socket st
  end.

Definition serve (trace : list Incoming) : State :=
  foldl setupSocketHandlers initial trace.

(** The status last announced for [u], offline when none was. *)
Definition announced (u : string) (e : Emit) : option UserStatus :=
  match e with
  | io_emit (USER_ONLINE (Some v) s _) => if bool_decide (v = u) then Some s else None
  | io_emit (USER_OFFLINE (Some v) s _) => if bool_decide (v = u) then Some s else None
  | _ => None
  end.

Definition statusOf (u : string) (st : State) : UserStatus :=
  default offline (last (omap (announced u) (emitted st))).

(** The [lastSeen] last announced for [u]. *)
Definition seen (u : string) (e : Emit) : option Date :=
  match e with
  | io_emit (USER_OFFLINE (Some v) _ t) => if bool_decide (v = u) then Some t else None
  | _ => None
  end.

Definition lastSeenOf (u : string) (st : State) : option Date :=
  last (omap (seen u) (emitted st)).

(** The session handles of [u] that are open after [trace]: the sockets of
    [u] that connected and did not disconnect since. *)
Definition openHandles (u : string) (trace : list Incoming) : list Socket :=
  foldl (fun open i =>
           match i with
           | CONNECT _ socket =>
               if bool_decide (query_userId socket = Some u)
               then List.filter (fun s => negb (bool_decide (s = socket))) open ++ [socket]
               else open
           | DISCONNECT _ socket =>
               List.filter (fun s => negb (bool_decide (s = socket))) open
           | _ => open
           end) [] trace.

(** The announced status of a user is online exactly when [activeUsers]
    has an entry for the user. *)
Definition agrees (st : State) : Prop :=
  ∀ u, statusOf u st = online ↔ is_Some (activeUsers st !! u).

(** The incoming events that are relayed to one socket: messages and
    typing notices. *)
Definition relayed (i : Incoming) : bool :=
  match i with
  | MESSAGE_SEND _ _ | USER_TYPING _ _ _ => true
  | CONNECT _ _ | DISCONNECT _ _ => false
  end.

End SocketHandler.

(** ** utils/tokenUtil.js *)

Module TokenUtil.

Import Stdlib.Strings.Ascii.

(** [s.split(sep)] for a separator of one character. *)
Fixpoint split (sep : Ascii.ascii) (s : string) : list string :=
  match s with
  | EmptyString => [EmptyString]
  | String c rest =>
      if Ascii.eqb c sep then EmptyString :: split sep rest
      else match split sep rest with
           | part :: parts => String c part :: parts
           | [] => [String c EmptyString]
           end
  end.

(** [authHeader] may be missing; [!authHeader] also holds for the empty
    string. *)
Definition extractTokenFromHeader (authHeader : option string) : option string :=
  match authHeader with
  | None => None
  | Some header =>
      if bool_decide (header = EmptyString) then None
      else
        let parts := split " "%char header in
        if negb (bool_decide (length parts = 2%nat))
           || negb (bool_decide (parts !! 0%nat = Some "Bearer"%string))
        then None
        else parts !! 1%nat
  end.

End TokenUtil.

(** * Properties *)

(** ** Message status and reactions *)

Section MessageFacts.

Import Message.

Implicit Types (this m : Message) (coll : list Message).
Implicit Types (u : ObjectId) (e : string).

(** The hook changes nothing when the status was not modified. *)
Lemma pre_save_unmodified hookNow persisted this :
  status this = status persisted → pre_save hookNow persisted this = this.
Proof.
  intros Hst. unfold pre_save, isModified_status.
  rewrite Hst, (bool_decide_eq_true_2 (status persisted = status persisted)) by done.
  cbn [negb andb]. rewrite Hst.
  by rewrite (bool_decide_eq_true_2 (status persisted = status persisted)).
Qed.

Lemma markAsDelivered_sent now hookNow this :
  status this = SENT →
  markAsDelivered now hookNow this =
    (set_deliveredAt (Some hookNow) (set_status DELIVERED this),
     Document (set_deliveredAt (Some hookNow) (set_status DELIVERED this))).
Proof.
  intros Hst. unfold markAsDelivered, save, pre_save, isModified_status.
  destruct this; simpl in *; subst; reflexivity.
Qed.

Lemma markAsDelivered_not_sent now hookNow this :
  status this ≠ SENT → markAsDelivered now hookNow this = (this, Undefined).
Proof.
  intros Hst. unfold markAsDelivered. by rewrite bool_decide_eq_false_2.
Qed.

Lemma markAsRead_not_read now hookNow this :
  status this ≠ READ →
  markAsRead now hookNow this =
    (set_readAt (Some hookNow) (set_status READ this),
     Document (set_readAt (Some hookNow) (set_status READ this))).
Proof.
  intros Hst. unfold markAsRead, save, pre_save, isModified_status.
  destruct this as [? ? ? ? ? ? ? ? ? st ? ? ? ? ? ? ?]; simpl in *.
  destruct st; try done.
Qed.

Lemma markAsRead_read now hookNow this :
  status this = READ → markAsRead now hookNow this = (this, Undefined).
Proof.
  intros Hst. unfold markAsRead. rewrite bool_decide_eq_false_2; [done|].
  by intros H.
Qed.

Lemma markAsRead_status now hookNow this :
  status (markAsRead now hookNow this).1 = READ.
Proof.
  destruct (decide (status this = READ)) as [Hst|Hst].
  - by rewrite markAsRead_read.
  - by rewrite markAsRead_not_read.
Qed.

(** What [addReaction] computes, by cases on the lookup. *)
Lemma addReaction_unfold hookNow u e this :
  addReaction hookNow u e this =
    if existsb (sameReaction u e) (reactions this)
    then (set_reactions (reactions this ++ [{| userId := u; emoji := e |}]) this,
          Document (set_reactions (reactions this ++ [{| userId := u; emoji := e |}]) this))
    else (this, Undefined).
Proof.
  unfold addReaction.
  assert (Hfind : bool_decide (is_Some (List.find (sameReaction u e) (reactions this)))
                  = existsb (sameReaction u e) (reactions this)).
  { induction (reactions this) as [|r rs IH]; simpl.
    - done.
    - destruct (sameReaction u e r); simpl; done. }
  rewrite Hfind. destruct (existsb _ _); simpl; [|done].
  unfold save. by rewrite pre_save_unmodified.
Qed.

Lemma removeReaction_unfold hookNow u e this :
  (removeReaction hookNow u e this).1 =
    set_reactions (List.filter (fun r => negb (sameReaction u e r)) (reactions this)) this.
Proof. unfold removeReaction, save. simpl. by rewrite pre_save_unmodified. Qed.

(** The boolean query filter of [getUnreadCount] against the property it
    encodes. *)
Lemma unread_filter_spec u m :
  matches (unreadFor u) m = true
  ↔ receiverId m = u ∧ status m ≠ READ ∧ isDeleted m = false.
Proof.
  unfold matches, holds; simpl.
  rewrite !andb_true_iff, negb_true_iff, !bool_decide_eq_true, bool_decide_eq_false.
  tauto.
Qed.

Lemma length_filter_bool_prop {A} (f : A → bool) (P : A → Prop)
    `{∀ x, Decision (P x)} (l : list A) :
  (∀ x, f x = true ↔ P x) → length (List.filter f l) = length (filter P l).
Proof.
  intros Hf. induction l as [|x l IH]; [done|]. simpl.
  rewrite filter_cons. destruct (f x) eqn:Hfx.
  - rewrite decide_True by by apply Hf. simpl. by rewrite IH.
  - rewrite decide_False; [done|]. rewrite <- Hf. by rewrite Hfx.
Qed.

Lemma unreadIn_spec c u m :
  matches (unreadIn c u) m = true
  ↔ conversationId m = c ∧ receiverId m = u ∧ status m ≠ READ.
Proof.
  unfold matches, holds; simpl.
  rewrite !andb_true_iff, negb_true_iff, !bool_decide_eq_true, bool_decide_eq_false.
  tauto.
Qed.

Lemma unreadIn_after_read c u d m :
  matches (unreadIn c u) (set_readAt d (set_status READ m)) = false.
Proof.
  apply not_true_is_false. rewrite unreadIn_spec. simpl. tauto.
Qed.

(** C1: [addReaction] does the opposite of what its comments announce: when
    no entry with that user and emoji is present the call leaves the
    document as it is and resolves to undefined, and when one is present a
    further copy of the pair is pushed and the document is saved. *)
Theorem addReaction_guard_inverted hookNow u e this :
  addReaction hookNow u e this =
    if bool_decide ({| userId := u; emoji := e |} ∈ reactions this)
    then (set_reactions (reactions this ++ [{| userId := u; emoji := e |}]) this,
          Document (set_reactions (reactions this ++ [{| userId := u; emoji := e |}]) this))
    else (this, Undefined).
Proof.
  rewrite addReaction_unfold.
  destruct (existsb (sameReaction u e) (reactions this)) eqn:Hex.
  - rewrite bool_decide_eq_true_2; [done|].
    apply existsb_exists in Hex as ([ru re] & Hin & Hr).
    unfold sameReaction in Hr. apply andb_true_iff in Hr as [Hu He].
    apply bool_decide_eq_true in Hu, He. simpl in *. subst.
    by apply list_elem_of_In.
  - rewrite bool_decide_eq_false_2; [done|].
    intros Hin.
    apply not_true_iff_false in Hex. apply Hex, existsb_exists.
    exists {| userId := u; emoji := e |}. rewrite <- list_elem_of_In. split; [done|].
    unfold sameReaction. simpl. by rewrite !bool_decide_eq_true_2.
Qed.

(** On a message without reactions the first reaction is not recorded. *)
Example addReaction_first_reaction_lost :
  let m := fresh "m1" "alice" "bob" "c1" "hi" in
  addReaction 7 "bob" "heart" m = (m, Undefined).
Proof. reflexivity. Qed.

(** On a message that has the reaction, the reaction is recorded again. *)
Example addReaction_duplicates :
  let m := set_reactions [{| userId := "bob"; emoji := "heart" |}]
             (fresh "m1" "alice" "bob" "c1" "hi") in
  reactions (addReaction 7 "bob" "heart" m).1 =
    [{| userId := "bob"; emoji := "heart" |}; {| userId := "bob"; emoji := "heart" |}].
Proof. reflexivity. Qed.

(** C8: after two identical calls of [addReaction], the reactions list is
    one longer than after the first call when the pair was present at the
    start, and as long as after the first call when it was not. *)
Theorem addReaction_twice_length hookNow hookNow' u e this :
  let once := (addReaction hookNow u e this).1 in
  let twice := (addReaction hookNow' u e once).1 in
  length (reactions twice) =
    if existsb (sameReaction u e) (reactions this)
    then S (length (reactions once))
    else length (reactions once).
Proof.
  simpl. rewrite (addReaction_unfold hookNow).
  destruct (existsb (sameReaction u e) (reactions this)) eqn:Hex; simpl.
  - rewrite addReaction_unfold. simpl.
    rewrite existsb_app, Hex. simpl. rewrite !length_app. simpl. lia.
  - rewrite addReaction_unfold, Hex. done.
Qed.

Example addReaction_twice_grows :
  let m := set_reactions [{| userId := "bob"; emoji := "heart" |}]
             (fresh "m1" "alice" "bob" "c1" "hi") in
  let once := (addReaction 7 "bob" "heart" m).1 in
  let twice := (addReaction 8 "bob" "heart" once).1 in
  length (reactions once) = 2%nat ∧ length (reactions twice) = 3%nat.
Proof. split; reflexivity. Qed.

(** C2: [markAsDelivered] acts on a sent message only, where it sets the
    status to delivered and stamps [deliveredAt]; on a delivered or read
    message it changes nothing, so after [markAsRead] the status stays read;
    and no operation on messages lowers the status in the order
    sent < delivered < read. *)
Theorem status_monotone now hookNow this :
  match status this with
  | SENT =>
      status (markAsDelivered now hookNow this).1 = DELIVERED
      ∧ deliveredAt (markAsDelivered now hookNow this).1 = Some hookNow
  | DELIVERED | READ =>
      markAsDelivered now hookNow this = (this, Undefined)
  end
  ∧ (∀ t t', status (markAsDelivered now hookNow (markAsRead t t' this).1).1 = READ)
  ∧ (∀ op, (rank (status this) ≤ rank (status (run op this).1))%nat)
  ∧ (∀ t c u coll,
       Forall2 (fun m m' => (rank (status m) ≤ rank (status m'))%nat)
         coll (markConversationAsRead t c u coll)).
Proof.
  split; [|split; [|split]].
  - destruct (status this) eqn:Hst.
    + by rewrite markAsDelivered_sent.
    + apply markAsDelivered_not_sent. by rewrite Hst.
    + apply markAsDelivered_not_sent. by rewrite Hst.
  - intros t t'. rewrite markAsDelivered_not_sent.
    + apply markAsRead_status.
    + by rewrite markAsRead_status.
  - intros [t t'|t t'|t u e|t u e]; unfold run.
    + destruct (decide (status this = SENT)) as [Hst|Hst].
      * rewrite markAsDelivered_sent by done. simpl. rewrite Hst. simpl. lia.
      * by rewrite markAsDelivered_not_sent.
    + rewrite markAsRead_status. destruct (status this); simpl; lia.
    + rewrite addReaction_unfold. by destruct (existsb _ _).
    + by rewrite removeReaction_unfold.
  - intros t c u coll. unfold markConversationAsRead, updateMany.
    induction coll as [|m coll IH]; simpl; constructor; [|done].
    destruct (matches _ m); simpl; [|done].
    destruct (status m); simpl; lia.
Qed.

(** C6: [markAsRead] leaves the message read, with [readAt] stamped when
    the message was not read before and kept otherwise; a second call is a
    no-op resolving to undefined, so [readAt] keeps the value of the first
    call. [markConversationAsRead] sets status read and [readAt] on exactly
    the messages of the conversation addressed to the reader that are not
    read, leaves the others as they are, and a second run changes nothing. *)
Theorem markRead_idempotent now hookNow now' hookNow' t t' c u this coll :
  let once := (markAsRead now hookNow this).1 in
  status once = READ
  ∧ readAt once = (if bool_decide (status this = READ) then readAt this else Some hookNow)
  ∧ markAsRead now' hookNow' once = (once, Undefined)
  ∧ Forall2 (fun m m' =>
               if bool_decide (conversationId m = c ∧ receiverId m = u ∧ status m ≠ READ)
               then m' = set_readAt (Some t) (set_status READ m)
               else m' = m)
      coll (markConversationAsRead t c u coll)
  ∧ markConversationAsRead t' c u (markConversationAsRead t c u coll)
    = markConversationAsRead t c u coll.
Proof.
  intros once. subst once. split; [|split; [|split; [|split]]].
  - apply markAsRead_status.
  - case_bool_decide as Hst.
    + by rewrite markAsRead_read.
    + by rewrite markAsRead_not_read.
  - apply markAsRead_read, markAsRead_status.
  - unfold markConversationAsRead, updateMany.
    induction coll as [|m coll IH]; simpl; constructor; [|done].
    destruct (matches (unreadIn c u) m) eqn:Hm.
    + rewrite bool_decide_eq_true_2; [done|]. by apply unreadIn_spec.
    + rewrite bool_decide_eq_false_2; [done|].
      rewrite <- unreadIn_spec. by rewrite Hm.
  - unfold markConversationAsRead, updateMany.
    induction coll as [|m coll IH]; simpl; [done|]. f_equal; [|done].
    destruct (matches (unreadIn c u) m) eqn:Hm.
    + by rewrite unreadIn_after_read.
    + by rewrite Hm.
Qed.

(** C7: [getUnreadCount] is the number of messages of the collection whose
    receiver is the user, whose status is not read and which are not
    soft-deleted. *)
Theorem getUnreadCount_spec u coll :
  getUnreadCount u coll =
    Z.of_nat (length (filter (fun m => receiverId m = u ∧ status m ≠ READ
                                       ∧ isDeleted m = false) coll)).
Proof.
  unfold getUnreadCount, countDocuments. f_equal.
  apply length_filter_bool_prop. intros m. apply unread_filter_spec.
Qed.

(** The schema paths after [markAsRead] on a message that is still sent. *)
Lemma markAsRead_from_sent now hookNow this :
  status this = SENT →
  let after := (markAsRead now hookNow this).1 in
  status after = READ
  ∧ readAt after = Some hookNow
  ∧ deliveredAt after = deliveredAt this
  ∧ _id after = _id this
  ∧ senderId after = senderId this
  ∧ receiverId after = receiverId this
  ∧ conversationId after = conversationId this
  ∧ content after = content this
  ∧ messageType after = messageType this
  ∧ imageUrl after = imageUrl this
  ∧ fileUrl after = fileUrl this
  ∧ fileMetadata after = fileMetadata this
  ∧ isDeleted after = isDeleted this
  ∧ isEdited after = isEdited this
  ∧ editedAt after = editedAt this
  ∧ replyTo after = replyTo this
  ∧ reactions after = reactions this.
Proof.
  intros Hst after. subst after.
  rewrite markAsRead_not_read by by rewrite Hst.
  simpl. repeat split.
Qed.

End MessageFacts.

(** ** Conversation resolution and toggles *)

Section ConversationFacts.

Import Conversation.

Implicit Types (this c : Conversation) (s : Store) (a b userId : ObjectId).

Lemma sort_pair a b :
  Array_sort localeCompare [a; b] =
    if localeCompare a b <=? 0 then [a; b] else [b; a].
Proof. reflexivity. Qed.

Lemma localeCompare_le a b : (localeCompare a b <=? 0) = String.leb a b.
Proof.
  unfold localeCompare, String.leb. by destruct (String.compare a b).
Qed.

Lemma leb_refl a : String.leb a a = true.
Proof. by destruct (String.leb_total a a). Qed.

(** The sorted pair does not depend on the order of the arguments. *)
Lemma sort_pair_comm a b :
  Array_sort localeCompare [a; b] = Array_sort localeCompare [b; a].
Proof.
  rewrite !sort_pair, !localeCompare_le.
  destruct (String.leb a b) eqn:Hab, (String.leb b a) eqn:Hba; try done.
  - by rewrite (String.leb_antisym a b Hab Hba).
  - destruct (String.leb_total a b); congruence.
Qed.

Lemma sort_pair_sorted a b :
  ∃ p q, Array_sort localeCompare [a; b] = [p; q] ∧ String.leb p q = true
         ∧ a ∈ [p; q] ∧ b ∈ [p; q].
Proof.
  rewrite sort_pair, localeCompare_le.
  destruct (String.leb a b) eqn:Hab.
  - exists a, b. set_solver.
  - exists b, a. destruct (String.leb_total a b); [congruence|]. set_solver.
Qed.

Lemma sort_sorted_pair p q :
  String.leb p q = true → Array_sort localeCompare [p; q] = [p; q].
Proof. intros Hpq. by rewrite sort_pair, localeCompare_le, Hpq. Qed.

Lemma sort_pair_idem a b :
  Array_sort localeCompare (Array_sort localeCompare [a; b])
  = Array_sort localeCompare [a; b].
Proof.
  destruct (sort_pair_sorted a b) as (p & q & -> & Hpq & _).
  by apply sort_sorted_pair.
Qed.

(** Saving a canonical conversation does not reorder its participants. *)
Lemma pre_save_canonical c : canonical c → pre_save c = c.
Proof.
  intros [Hty (p & q & Hps & Hpq)]. unfold pre_save.
  rewrite Hty, Hps, sort_sorted_pair by done. simpl.
  destruct c; simpl in *; by subst.
Qed.

Lemma find_after_miss {A} (f : A → bool) (l1 l2 : list A) :
  List.find f l1 = None → List.find f (l1 ++ l2) = List.find f l2.
Proof.
  induction l1 as [|x l1 IH]; simpl; [done|]. by destruct (f x).
Qed.

Lemma all_participants_direct_pair p q c :
  all_participants_direct [p; q] c = true
  ↔ p ∈ participants c ∧ q ∈ participants c ∧ type c = direct.
Proof.
  unfold all_participants_direct. simpl.
  rewrite !andb_true_iff, !bool_decide_eq_true. tauto.
Qed.

(** A canonical conversation answers the query of a pair exactly when its
    participants are the sorted pair. *)
Lemma canonical_same_participants a b c :
  canonical c →
  participants c = Array_sort localeCompare [a; b] →
  all_participants_direct (Array_sort localeCompare [a; b]) c = true.
Proof.
  intros [Hty _] Hps.
  destruct (sort_pair_sorted a b) as (p & q & Hs & _).
  rewrite Hs in *. apply all_participants_direct_pair. rewrite Hps. set_solver.
Qed.

Section WithSchemaDate.

Variable schemaDate : Date.

(** When the lookup of a pair finds nothing in a consistent collection, the
    insert is accepted and the collection stays consistent. *)
Lemma create_after_miss a b s :
  consistent s →
  findOne (all_participants_direct (Array_sort localeCompare [a; b])) s = None →
  ∃ doc,
    create schemaDate (Array_sort localeCompare [a; b]) direct a s
      = (inr doc, {| docs := docs s ++ [doc]; nextId := S (nextId s) |})
    ∧ canonical doc
    ∧ participants doc = Array_sort localeCompare [a; b]
    ∧ consistent {| docs := docs s ++ [doc]; nextId := S (nextId s) |}.
Proof.
  intros [Hcan Hnd] Hmiss. unfold create.
  destruct (sort_pair_sorted a b) as (p & q & Hs & Hpq & _).
  set (raw := {| _id := nextId s; participants := Array_sort localeCompare [a; b];
                 lastMessage := None; lastMessageTime := schemaDate;
                 name := None; avatar := None; type := direct;
                 mutedBy := []; archivedBy := []; messageCount := 0;
                 createdBy := Some a |}).
  assert (Hraw : canonical raw).
  { split; [done|]. exists p, q. by rewrite <- Hs. }
  rewrite (pre_save_canonical raw Hraw).
  assert (Hfree : ∀ c, c ∈ docs s → participants c ≠ participants raw).
  { intros c Hc Heq.
    pose proof (find_none _ _ Hmiss c (proj1 (list_elem_of_In _ _) Hc)) as Hno.
    rewrite canonical_same_participants in Hno; [done| |done].
    by eapply (proj1 (Forall_forall _ _) Hcan). }
  assert (Huniq : unique_participants_direct_chat raw s = true).
  { unfold unique_participants_direct_chat. apply forallb_forall.
    intros c Hc. apply negb_true_iff, bool_decide_eq_false_2.
    apply Hfree. by apply list_elem_of_In. }
  rewrite Huniq. exists raw. split; [done|]. split; [done|]. split; [done|].
  split; simpl.
  - apply Forall_app. split; [done|]. by constructor.
  - rewrite fmap_app. apply NoDup_app. split; [done|]. split.
    + intros ps Hps Hin. apply list_elem_of_fmap in Hps as (c & -> & Hc).
      apply list_elem_of_singleton in Hin. by apply (Hfree c).
    + apply NoDup_singleton.
Qed.

(** One call on a consistent collection: it returns a conversation, which
    is afterwards the first answer to the query of the pair, and the
    collection stays consistent. *)
Lemma findOrCreateConversation_consistent a b s :
  consistent s →
  ∃ c s1,
    findOrCreateConversation schemaDate a b s = (inr c, s1)
    ∧ consistent s1
    ∧ findOne (all_participants_direct (Array_sort localeCompare [a; b])) s1 = Some c.
Proof.
  intros Hs. unfold findOrCreateConversation, findOrCreateConversation_among.
  destruct (findOne _ s) as [c|] eqn:Hfind.
  - by exists c, s.
  - destruct (create_after_miss a b s Hs Hfind) as (doc & -> & Hcan & Hps & Hs1).
    eexists _, _. split; [done|]. split; [done|].
    unfold findOne in *. cbn [docs].
    rewrite find_after_miss by done. cbn [List.find].
    by rewrite (canonical_same_participants a b doc Hcan Hps).
Qed.

(** A call whose lookup succeeds returns what it found and inserts nothing. *)
Lemma findOrCreateConversation_hit a b s c :
  findOne (all_participants_direct (Array_sort localeCompare [a; b])) s = Some c →
  findOrCreateConversation schemaDate a b s = (inr c, s).
Proof.
  intros Hfind. unfold findOrCreateConversation, findOrCreateConversation_among.
  by rewrite Hfind.
Qed.

Lemma resolveAll_consistent calls s :
  consistent s → consistent (resolveAll schemaDate calls s).
Proof.
  revert s. induction calls as [|[a b] calls IH]; intros s Hs; [done|].
  simpl. apply IH.
  destruct (findOrCreateConversation_consistent a b s Hs) as (c & s1 & -> & Hs1 & _).
  done.
Qed.

Lemma empty_consistent : consistent empty.
Proof. split; simpl; constructor. Qed.

End WithSchemaDate.

(** C4: after any sequence of resolutions from the empty collection,
    resolving a pair returns a conversation; resolving it again, in either
    order, returns that same conversation and leaves the collection as it
    is; the conversation holds the two ids in lexicographic order of the id
    strings; and no two stored conversations have the same participants. *)
Theorem resolve_commutative_unique schemaDate calls a b :
  let s := resolveAll schemaDate calls empty in
  ∃ c s1,
    findOrCreateConversation schemaDate a b s = (inr c, s1)
    ∧ findOrCreateConversation schemaDate b a s1 = (inr c, s1)
    ∧ findOrCreateConversation schemaDate a b s1 = (inr c, s1)
    ∧ (∃ p q, participants c = [p; q] ∧ String.leb p q = true
              ∧ a ∈ [p; q] ∧ b ∈ [p; q])
    ∧ c ∈ docs s1
    ∧ NoDup (participants <$> docs s1).
Proof.
  intros s.
  assert (Hs : consistent s) by apply resolveAll_consistent, empty_consistent.
  destruct (findOrCreateConversation_consistent schemaDate a b s Hs)
    as (c & s1 & Hcall & [Hcan Hnd] & Hfind).
  exists c, s1. split; [done|].
  split; [apply findOrCreateConversation_hit; by rewrite sort_pair_comm|].
  split; [by apply findOrCreateConversation_hit|].
  apply find_some in Hfind as [Hin Hq].
  apply list_elem_of_In in Hin.
  split; [|done].
  destruct (proj1 (Forall_forall _ _) Hcan c Hin) as [_ (p & q & Hps & Hpq)].
  exists p, q. split; [done|]. split; [done|].
  destruct (sort_pair_sorted a b) as (p' & q' & Hsort & _ & Ha & Hb).
  rewrite Hsort in Hq. apply all_participants_direct_pair in Hq as (Hp' & Hq' & _).
  rewrite Hps in Hp', Hq'. set_solver.
Qed.

Example resolve_alice_bob :
  let r1 := findOrCreateConversation 0 "bob" "alice" empty in
  let r2 := findOrCreateConversation 0 "alice" "bob" r1.2 in
  r2 = r1 ∧ (participants <$> docs r2.2) = [["alice"; "bob"]].
Proof. split; reflexivity. Qed.

(** C5, as stated, fails: when the other party's first-contact call inserts
    the pair between the lookup and the insert of this call, the insert is
    rejected and the call ends with the duplicate-key error. *)
Lemma conflict_reaches_caller :
  let other := fun s => (findOrCreateConversation 0 "bob" "alice" s).2 in
  (findOrCreateConversation_among 0 other "alice" "bob" empty).1 = inl DuplicateKey.
Proof. reflexivity. Qed.

(** C5, amended: the call ends with the duplicate-key error exactly when its
    lookup found nothing and a conversation with the sorted pair as
    participants was inserted before its own insert; there is no second
    lookup, and the collection is left as the other writers left it. *)
Theorem conflict_is_rethrown schemaDate others a b s :
  ((findOrCreateConversation_among schemaDate others a b s).1 = inl DuplicateKey
   ↔ findOne (all_participants_direct (Array_sort localeCompare [a; b])) s = None
     ∧ ∃ c, c ∈ docs (others s)
            ∧ participants c = Array_sort localeCompare [a; b])
  ∧ (∀ e, (findOrCreateConversation_among schemaDate others a b s).1 = inl e →
          (findOrCreateConversation_among schemaDate others a b s).2 = others s).
Proof.
  unfold findOrCreateConversation_among.
  destruct (findOne _ s) as [c|] eqn:Hfind.
  { simpl. split; [|done]. split; [done|]. by intros [? _]. }
  unfold create.
  set (raw := {| _id := nextId (others s);
                 participants := Array_sort localeCompare [a; b];
                 lastMessage := None; lastMessageTime := schemaDate;
                 name := None; avatar := None; type := direct;
                 mutedBy := []; archivedBy := []; messageCount := 0;
                 createdBy := Some a |}).
  assert (Hraw : pre_save raw = raw).
  { apply pre_save_canonical. split; [done|].
    destruct (sort_pair_sorted a b) as (p & q & Hs & Hpq & _).
    exists p, q. by rewrite <- Hs. }
  rewrite Hraw.
  destruct (unique_participants_direct_chat raw (others s)) eqn:Huniq; cbn [fst snd].
  - split; [|done]. split; [done|]. intros [_ (c & Hc & Hps)].
    unfold unique_participants_direct_chat in Huniq.
    rewrite forallb_forall in Huniq.
    specialize (Huniq c (proj1 (list_elem_of_In _ _) Hc)).
    apply negb_true_iff, bool_decide_eq_false in Huniq. exfalso. by apply Huniq.
  - split; [|done]. split; [|done]. intros _. split; [done|].
    unfold unique_participants_direct_chat in Huniq.
    apply not_true_iff_false in Huniq.
    destruct (decide (Exists (fun c => participants c = participants raw) (docs (others s))))
      as [Hex|Hnex].
    + apply Exists_exists in Hex as (c & Hc & Hps). by exists c.
    + exfalso. apply Huniq, forallb_forall. intros c Hc.
      apply negb_true_iff, bool_decide_eq_false_2. intros Hps.
      apply Hnex, Exists_exists. exists c. split; [|done]. by apply list_elem_of_In.
Qed.

Lemma conflict_is_rethrown_witness :
  let other := fun s => (findOrCreateConversation 0 "bob" "alice" s).2 in
  findOne (all_participants_direct (Array_sort localeCompare ["alice"; "bob"])) empty = None
  ∧ (findOrCreateConversation_among 0 other "alice" "bob" empty).1 = inl DuplicateKey
  ∧ (findOrCreateConversation_among 0 other "alice" "bob" empty).2 = other empty.
Proof.
  intros other.
  pose proof (conflict_is_rethrown 0 other "alice" "bob" empty) as [Hiff Hstore].
  assert (Herr : (findOrCreateConversation_among 0 other "alice" "bob" empty).1
                 = inl DuplicateKey).
  { apply Hiff. split; [reflexivity|].
    eexists. split; [apply list_elem_of_here|reflexivity]. }
  split; [reflexivity|]. split; [exact Herr|]. exact (Hstore _ Herr).
Defined.

(** The list a toggle leaves behind: the first occurrence of the user is
    spliced out, or the user is pushed at the end. On a list without
    duplicates this flips the membership of the user and of nobody else. *)
Lemma toggle_list userId (l : list ObjectId) :
  NoDup l →
  let l' := if indexOf userId l >? -1 then splice1 (indexOf userId l) l
            else l ++ [userId] in
  (userId ∈ l' ↔ userId ∉ l)
  ∧ (∀ v, v ≠ userId → v ∈ l' ↔ v ∈ l)
  ∧ NoDup l'.
Proof.
  intros Hnd. unfold indexOf, splice1.
  destruct (list_find (fun y => y = userId) l) as [[i y]|] eqn:Hfind.
  - apply list_find_Some in Hfind as (Hi & -> & _).
    replace (Z.of_nat i >? -1) with true by (symmetry; apply Z.gtb_lt; lia).
    rewrite Nat2Z.id. simpl. rewrite delete_take_drop.
    rewrite <- (take_drop_middle l i userId Hi) in Hnd.
    apply NoDup_app in Hnd as (Hnd1 & Hdisj & Hnd2).
    apply NoDup_cons in Hnd2 as [Hnot2 Hnd2].
    assert (Hnot1 : userId ∉ take i l).
    { intros Hin. apply (Hdisj _ Hin). by left. }
    assert (Hl : ∀ v, v ∈ l ↔ v ∈ take i l ∨ v = userId ∨ v ∈ drop (S i) l).
    { intros v. rewrite <- (take_drop_middle l i userId Hi) at 1.
      by rewrite elem_of_app, elem_of_cons. }
    split; [|split].
    + rewrite elem_of_app. split; [tauto|]. intros Hout. exfalso.
      apply Hout, Hl. tauto.
    + intros v Hv. rewrite elem_of_app, Hl. tauto.
    + apply NoDup_app. split; [done|]. split; [|done].
      intros v Hv1 Hv2. apply (Hdisj v Hv1). by right.
  - apply list_find_None in Hfind.
    assert (Hout : userId ∉ l).
    { intros Hin. by apply (proj1 (Forall_forall _ _) Hfind userId). }
    simpl. split; [|split].
    + rewrite elem_of_app, list_elem_of_singleton. tauto.
    + intros v Hv. rewrite elem_of_app, list_elem_of_singleton. tauto.
    + apply NoDup_app. split; [done|]. split; [|apply NoDup_singleton].
      intros v Hv1 Hv2. apply list_elem_of_singleton in Hv2. by subst.
Qed.

Lemma pre_save_mutedBy c : mutedBy (pre_save c) = mutedBy c.
Proof. unfold pre_save. by destruct (_ && _). Qed.

Lemma pre_save_archivedBy c : archivedBy (pre_save c) = archivedBy c.
Proof. unfold pre_save. by destruct (_ && _). Qed.

Lemma isMutedFor_spec userId c : isMutedFor userId c = bool_decide (userId ∈ mutedBy c).
Proof.
  unfold isMutedFor. induction (mutedBy c) as [|x l IH]; simpl; [done|].
  rewrite IH. repeat case_bool_decide; subst; simpl; try done; set_solver.
Qed.

Lemma isArchivedFor_spec userId c :
  isArchivedFor userId c = bool_decide (userId ∈ archivedBy c).
Proof.
  unfold isArchivedFor. induction (archivedBy c) as [|x l IH]; simpl; [done|].
  rewrite IH. repeat case_bool_decide; subst; simpl; try done; set_solver.
Qed.

(** C9, as stated, fails on the returned value: the promise of a toggle
    resolves to the saved conversation, not to the new membership. *)
Lemma toggle_returns_document :
  let c := {| _id := 0%nat; participants := ["alice"; "bob"]; lastMessage := None;
              lastMessageTime := 0; name := None; avatar := None; type := direct;
              mutedBy := []; archivedBy := []; messageCount := 0;
              createdBy := Some "alice" |} in
  isMutedFor "alice" (toggleMute "alice" c).1 = true
  ∧ (toggleMute "alice" c).2 ≠ Boolean true
  ∧ isArchivedFor "alice" (toggleArchive "alice" c).1 = true
  ∧ (toggleArchive "alice" c).2 ≠ Boolean true.
Proof. repeat split; done. Qed.

(** C9, amended: on a conversation whose [mutedBy] (respectively
    [archivedBy]) list has no duplicates, [toggleMute] (respectively
    [toggleArchive]) flips the membership of the user in that list, keeps
    everybody else's membership and the absence of duplicates, and resolves
    to the saved conversation, in which [isMutedFor] (respectively
    [isArchivedFor]) gives the new membership. *)
Theorem toggle_flips_membership userId this :
  NoDup (mutedBy this) → NoDup (archivedBy this) →
  let muted := (toggleMute userId this).1 in
  let archived := (toggleArchive userId this).1 in
  ((userId ∈ mutedBy muted ↔ userId ∉ mutedBy this)
   ∧ (∀ v, v ≠ userId → v ∈ mutedBy muted ↔ v ∈ mutedBy this)
   ∧ NoDup (mutedBy muted)
   ∧ archivedBy muted = archivedBy this
   ∧ (toggleMute userId this).2 = Document muted
   ∧ isMutedFor userId muted = negb (isMutedFor userId this))
  ∧ ((userId ∈ archivedBy archived ↔ userId ∉ archivedBy this)
     ∧ (∀ v, v ≠ userId → v ∈ archivedBy archived ↔ v ∈ archivedBy this)
     ∧ NoDup (archivedBy archived)
     ∧ mutedBy archived = mutedBy this
     ∧ (toggleArchive userId this).2 = Document archived
     ∧ isArchivedFor userId archived = negb (isArchivedFor userId this)).
Proof.
  intros Hm Ha muted archived. split.
  - destruct (toggle_list userId (mutedBy this) Hm) as (Hflip & Hrest & Hnd).
    assert (Hl : mutedBy muted =
                 if indexOf userId (mutedBy this) >? -1
                 then splice1 (indexOf userId (mutedBy this)) (mutedBy this)
                 else mutedBy this ++ [userId]).
    { subst muted. unfold toggleMute, save. cbn [fst]. rewrite pre_save_mutedBy.
      by destruct (_ >? _). }
    rewrite Hl. split; [done|]. split; [done|]. split; [done|].
    split; [|split].
    + subst muted. unfold toggleMute, save. cbn [fst]. rewrite pre_save_archivedBy.
      by destruct (_ >? _).
    + done.
    + rewrite !isMutedFor_spec, Hl.
      repeat case_bool_decide; simpl; tauto.
  - destruct (toggle_list userId (archivedBy this) Ha) as (Hflip & Hrest & Hnd).
    assert (Hl : archivedBy archived =
                 if indexOf userId (archivedBy this) >? -1
                 then splice1 (indexOf userId (archivedBy this)) (archivedBy this)
                 else archivedBy this ++ [userId]).
    { subst archived. unfold toggleArchive, save. cbn [fst].
      rewrite pre_save_archivedBy. by destruct (_ >? _). }
    rewrite Hl. split; [done|]. split; [done|]. split; [done|].
    split; [|split].
    + subst archived. unfold toggleArchive, save. cbn [fst]. rewrite pre_save_mutedBy.
      by destruct (_ >? _).
    + done.
    + rewrite !isArchivedFor_spec, Hl.
      repeat case_bool_decide; simpl; tauto.
Qed.

Lemma toggle_flips_membership_witness :
  let c := {| _id := 0%nat; participants := ["alice"; "bob"]; lastMessage := None;
              lastMessageTime := 0; name := None; avatar := None; type := direct;
              mutedBy := ["bob"]; archivedBy := []; messageCount := 0;
              createdBy := Some "alice" |} in
  NoDup (mutedBy c) ∧ NoDup (archivedBy c)
  ∧ isMutedFor "bob" (toggleMute "bob" c).1 = negb (isMutedFor "bob" c)
  ∧ isArchivedFor "bob" (toggleArchive "bob" c).1 = negb (isArchivedFor "bob" c).
Proof.
  intros c.
  assert (Hm : NoDup (mutedBy c)) by (apply NoDup_singleton).
  assert (Ha : NoDup (archivedBy c)) by (apply NoDup_nil_2).
  pose proof (toggle_flips_membership "bob" c Hm Ha) as [Hmute Harch].
  split; [exact Hm|]. split; [exact Ha|].
  split; [apply Hmute|apply Harch].
Defined.

End ConversationFacts.

(** ** Presence *)

Section PresenceFacts.

Import SocketHandler.

Implicit Types (st : State) (u : string) (socket : Socket) (trace : list Incoming).

Lemma statusOf_emit u st users e :
  statusOf u {| activeUsers := users; emitted := emitted st ++ [e] |} =
    match announced u e with
    | Some status => status
    | None => statusOf u st
    end.
Proof.
  unfold statusOf. cbn [emitted]. rewrite omap_app. cbn [omap list_omap].
  destruct (announced u e); [by rewrite last_snoc|by rewrite app_nil_r].
Qed.

Lemma lastSeenOf_emit u st users e :
  lastSeenOf u {| activeUsers := users; emitted := emitted st ++ [e] |} =
    match seen u e with
    | Some t => Some t
    | None => lastSeenOf u st
    end.
Proof.
  unfold lastSeenOf. cbn [emitted]. rewrite omap_app. cbn [omap list_omap].
  destruct (seen u e); [by rewrite last_snoc|by rewrite app_nil_r].
Qed.

Lemma agrees_initial : agrees initial.
Proof.
  intros u. unfold statusOf. simpl. rewrite lookup_empty.
  split; [done|]. by intros [? ?].
Qed.

Lemma agrees_step st i : agrees st → agrees (setupSocketHandlers st i).
Proof.
  intros Hst u. destruct i as [now socket|socket data|socket conv receiver|now socket];
    cbn [setupSocketHandlers].
  - unfold on_CONNECT. destruct (query_userId socket) as [v|] eqn:Hv; [|apply Hst].
    destruct (truthy (Some v)); [|apply Hst].
    rewrite statusOf_emit. cbn [announced activeUsers].
    case_bool_decide as Huv.
    + subst v. rewrite lookup_insert_eq. split; [by eexists|done].
    + rewrite lookup_insert_ne by done. apply Hst.
  - unfold on_MESSAGE_SEND. destruct (activeUsers st !! receiverId data); [|apply Hst].
    rewrite statusOf_emit. apply Hst.
  - unfold on_USER_TYPING. destruct (activeUsers st !! receiver); [|apply Hst].
    rewrite statusOf_emit. apply Hst.
  - unfold on_DISCONNECT. rewrite statusOf_emit. cbn [announced activeUsers].
    destruct (query_userId socket) as [v|]; [|apply Hst].
    case_bool_decide as Huv.
    + subst v. rewrite lookup_delete_eq. split; [done|]. by intros [? ?].
    + rewrite lookup_delete_ne by done. apply Hst.
Qed.

Lemma agrees_serve trace : agrees (serve trace).
Proof.
  unfold serve. generalize agrees_initial. generalize initial.
  induction trace as [|i trace IH]; intros st Hst; [done|].
  simpl. by apply IH, agrees_step.
Qed.

(** C3, as stated, fails: with two sockets of the same user connected,
    the disconnection of the first one removes the user's entry and
    announces the user offline, although the second socket is still open. *)
Lemma second_handle_forgotten :
  let s1 := {| id := "s1"; query_userId := Some "alice" |} in
  let s2 := {| id := "s2"; query_userId := Some "alice" |} in
  let trace := [CONNECT 1 s1; CONNECT 2 s2; DISCONNECT 3 s1] in
  openHandles "alice" trace = [s2]
  ∧ statusOf "alice" (serve trace) = offline
  ∧ activeUsers (serve trace) !! "alice" = None.
Proof. repeat split; vm_compute; reflexivity. Qed.

(** C3, amended: [activeUsers] holds at most one socket id per user. After
    any trace, the user is announced online exactly when the map has an
    entry for them; a connection of a socket of the user makes that socket
    the entry, replacing an earlier one, and announces the user online; the
    disconnection of any socket of the user removes the entry and announces
    the user offline with [lastSeen] stamped. *)
Theorem presence_single_handle trace u now socket :
  query_userId socket = Some u → u ≠ EmptyString →
  let st := serve trace in
  let connected := setupSocketHandlers st (CONNECT now socket) in
  let disconnected := setupSocketHandlers st (DISCONNECT now socket) in
  (statusOf u st = online ↔ is_Some (activeUsers st !! u))
  ∧ activeUsers connected !! u = Some (id socket)
  ∧ statusOf u connected = online
  ∧ activeUsers disconnected !! u = None
  ∧ statusOf u disconnected = offline
  ∧ lastSeenOf u disconnected = Some now.
Proof.
  intros Hu Hne st connected disconnected.
  split; [apply agrees_serve|].
  subst connected disconnected. cbn [setupSocketHandlers].
  unfold on_CONNECT, on_DISCONNECT. rewrite Hu.
  assert (Htruthy : truthy (Some u) = true).
  { simpl. by rewrite bool_decide_eq_false_2. }
  rewrite Htruthy, !statusOf_emit, lastSeenOf_emit.
  cbn [activeUsers announced seen].
  rewrite lookup_insert_eq, lookup_delete_eq, bool_decide_eq_true_2 by done.
  done.
Qed.

Lemma presence_single_handle_witness :
  let s1 := {| id := "s1"; query_userId := Some "alice" |} in
  let s2 := {| id := "s2"; query_userId := Some "alice" |} in
  let st := serve [CONNECT 1 s1; CONNECT 2 s2] in
  query_userId s1 = Some "alice" ∧ "alice" ≠ EmptyString
  ∧ activeUsers (setupSocketHandlers st (DISCONNECT 3 s1)) !! "alice" = None
  ∧ statusOf "alice" (setupSocketHandlers st (DISCONNECT 3 s1)) = offline
  ∧ lastSeenOf "alice" (setupSocketHandlers st (DISCONNECT 3 s1)) = Some 3.
Proof.
  intros s1 s2 st.
  assert (Hne : "alice" ≠ EmptyString) by discriminate.
  pose proof (presence_single_handle
                [CONNECT 1 s1; CONNECT 2 s2] "alice" 3 s1 eq_refl Hne)
    as (_ & _ & _ & Hgone & Hoff & Hseen).
  split; [reflexivity|]. split; [exact Hne|].
  split; [exact Hgone|]. split; [exact Hoff|exact Hseen].
Defined.

End PresenceFacts.

(** ** Further properties of messages *)

Section MessageLifecycle.

Import Message.

Implicit Types (this m : Message) (coll : list Message) (ops : list Op).
Implicit Types (u : ObjectId) (e : string).

Lemma sameReaction_true u e r :
  sameReaction u e r = true ↔ r = {| userId := u; emoji := e |}.
Proof.
  unfold sameReaction. rewrite andb_true_iff, !bool_decide_eq_true.
  destruct r as [ru re]; simpl. split; [by intros [-> ->]|].
  by intros [= -> ->].
Qed.

Lemma existsb_sameReaction u e (rs : list Reaction) :
  existsb (sameReaction u e) rs = true ↔ {| userId := u; emoji := e |} ∈ rs.
Proof.
  rewrite existsb_exists. split.
  - intros (r & Hin & Hr). apply sameReaction_true in Hr. subst.
    by apply list_elem_of_In.
  - intros Hin. eexists. split; [by apply list_elem_of_In|].
    by apply sameReaction_true.
Qed.

Lemma elem_of_filter_bool {A} (f : A → bool) (l : list A) x :
  x ∈ List.filter f l ↔ x ∈ l ∧ f x = true.
Proof. rewrite !list_elem_of_In. apply filter_In. Qed.

Lemma runAll_snoc ops op this :
  runAll (ops ++ [op]) this = (run op (runAll ops this)).1.
Proof. unfold runAll. by rewrite foldl_app. Qed.

(** The status and the timestamps after one operation, by cases. *)
Lemma run_reaction_frame op this :
  match op with
  | AddReaction _ _ _ | RemoveReaction _ _ _ =>
      status (run op this).1 = status this
      ∧ deliveredAt (run op this).1 = deliveredAt this
      ∧ readAt (run op this).1 = readAt this
  | _ => True
  end.
Proof.
  destruct op as [| |h u e|h u e]; try done; unfold run.
  - rewrite addReaction_unfold. by destruct (existsb _ _).
  - by rewrite removeReaction_unfold.
Qed.

Lemma run_coherent op this : coherent this → coherent (run op this).1.
Proof.
  intros [Hread Hsent]. destruct op as [n h|n h|h u e|h u e].
  - unfold run. destruct (decide (status this = SENT)) as [Hst|Hst].
    + rewrite markAsDelivered_sent by done. split; simpl; [|done].
      rewrite Hst in Hread. split; [done|]. intros Hr. by apply Hread in Hr.
    + by rewrite markAsDelivered_not_sent.
  - unfold run. destruct (decide (status this = READ)) as [Hst|Hst].
    + by rewrite markAsRead_read.
    + rewrite markAsRead_not_read by done. split; simpl; done.
  - destruct (run_reaction_frame (AddReaction h u e) this) as (Hs & Hd & Hr).
    unfold coherent. by rewrite Hs, Hd, Hr.
  - destruct (run_reaction_frame (RemoveReaction h u e) this) as (Hs & Hd & Hr).
    unfold coherent. by rewrite Hs, Hd, Hr.
Qed.

Lemma runAll_coherent ops this : coherent this → coherent (runAll ops this).
Proof.
  revert this. induction ops as [|op ops IH]; intros this Hc; [done|].
  apply (IH (run op this).1), run_coherent, Hc.
Qed.

Lemma fresh_coherent id sender receiver conversation text :
  coherent (fresh id sender receiver conversation text).
Proof. split; simpl; [|done]. split; done. Qed.

Lemma removeReaction_elem_of hookNow u e this r :
  r ∈ reactions (removeReaction hookNow u e this).1
  ↔ r ∈ reactions this ∧ r ≠ {| userId := u; emoji := e |}.
Proof.
  rewrite removeReaction_unfold. simpl.
  rewrite elem_of_filter_bool, negb_true_iff.
  by rewrite <- not_true_iff_false, sameReaction_true.
Qed.

(** X1: [removeReaction] removes every entry of the pair and nothing else:
    the remaining reactions are exactly the entries of the list that differ
    from the pair, in their order and each as many times as before; status
    and timestamps are untouched; and a second removal changes nothing. *)
Theorem removeReaction_removes_pair hookNow hookNow' u e this :
  let after := (removeReaction hookNow u e this).1 in
  reactions after
    = filter (fun r => r ≠ {| userId := u; emoji := e |}) (reactions this)
  ∧ (∀ r, r ≠ {| userId := u; emoji := e |} →
          length (filter (fun r' => r' = r) (reactions after))
          = length (filter (fun r' => r' = r) (reactions this)))
  ∧ (∀ r, r ∈ reactions after ↔ r ∈ reactions this ∧ r ≠ {| userId := u; emoji := e |})
  ∧ reactions after `sublist_of` reactions this
  ∧ status after = status this
  ∧ deliveredAt after = deliveredAt this
  ∧ readAt after = readAt this
  ∧ (removeReaction hookNow' u e after).1 = after.
Proof.
  intros after. subst after.
  assert (Hfilter : reactions (removeReaction hookNow u e this).1
            = filter (fun r => r ≠ {| userId := u; emoji := e |}) (reactions this)).
  { rewrite removeReaction_unfold. simpl.
    induction (reactions this) as [|r rs IH]; [done|]. simpl.
    rewrite filter_cons. destruct (sameReaction u e r) eqn:Hr; simpl.
    - apply sameReaction_true in Hr. by rewrite decide_False by tauto.
    - apply not_true_iff_false in Hr. rewrite sameReaction_true in Hr.
      rewrite decide_True by done. by rewrite IH. }
  split; [done|]. split.
  { intros r Hr. rewrite Hfilter. clear Hfilter.
    induction (reactions this) as [|r' rs IH]; [done|].
    rewrite (filter_cons (fun r => r ≠ {| userId := u; emoji := e |})).
    destruct (decide (r' ≠ {| userId := u; emoji := e |})) as [Hkeep|Hdrop].
    - rewrite !(filter_cons (fun r' => r' = r)).
      destruct (decide (r' = r)); simpl; by rewrite IH.
    - rewrite IH, (filter_cons (fun r' => r' = r)).
      rewrite decide_False; [done|]. intros ->. by apply Hdrop. }
  split; [intros r; apply removeReaction_elem_of|]. clear Hfilter.
  rewrite !removeReaction_unfold. simpl.
  split; [|split; [|split; [|split]]]; try done.
  - induction (reactions this) as [|r rs IH]; simpl; [done|].
    destruct (sameReaction u e r); simpl; by constructor.
  - unfold set_reactions. simpl. f_equal.
    induction (reactions this) as [|r rs IH]; simpl; [done|].
    destruct (sameReaction u e r) eqn:Hr; simpl; [done|].
    by rewrite Hr, IH.
Qed.

Lemma removeReaction_removes_pair_witness :
  let carol := {| userId := "carol"; emoji := "star" |} in
  let bob := {| userId := "bob"; emoji := "heart" |} in
  let this := set_reactions [carol; bob; carol] (fresh "m1" "alice" "bob" "c1" "hi") in
  let after := (removeReaction 5 "bob" "heart" this).1 in
  carol ≠ bob
  ∧ reactions after = [carol; carol]
  ∧ length (filter (fun r' => r' = carol) (reactions after)) = 2%nat.
Proof.
  intros carol bob this after.
  assert (Hne : carol ≠ bob) by discriminate.
  pose proof (removeReaction_removes_pair 5 5 "bob" "heart" this) as (Heq & Hcount & _).
  split; [exact Hne|]. split; [reflexivity|].
  exact (eq_trans (Hcount carol Hne) eq_refl).
Defined.

(** X2: no sequence of operations records a reaction that the message did
    not hold before; on a message without reactions the list stays empty. *)
Theorem reactions_never_recorded ops this r :
  r ∈ reactions (runAll ops this) → r ∈ reactions this.
Proof.
  revert this. induction ops as [|op ops IH]; intros this; [done|].
  intros Hin. apply (IH (run op this).1) in Hin. clear IH.
  destruct op as [n h|n h|h u e|h u e]; unfold run in Hin.
  - destruct (decide (status this = SENT)) as [Hst|Hst].
    + by rewrite markAsDelivered_sent in Hin.
    + by rewrite markAsDelivered_not_sent in Hin.
  - destruct (decide (status this = READ)) as [Hst|Hst].
    + by rewrite markAsRead_read in Hin.
    + by rewrite markAsRead_not_read in Hin.
  - rewrite addReaction_unfold in Hin.
    destruct (existsb _ _) eqn:Hex; [|done]. simpl in Hin.
    apply elem_of_app in Hin as [Hin|Hin]; [done|].
    apply list_elem_of_singleton in Hin. subst.
    by apply existsb_sameReaction.
  - rewrite removeReaction_unfold in Hin. simpl in Hin.
    by apply elem_of_filter_bool in Hin as [Hin _].
Qed.

Lemma reactions_never_recorded_witness :
  let this := set_reactions [{| userId := "bob"; emoji := "heart" |}]
                (fresh "m1" "alice" "bob" "c1" "hi") in
  let ops := [AddReaction 1 "bob" "heart"; AddReaction 2 "carol" "star"] in
  {| userId := "bob"; emoji := "heart" |} ∈ reactions (runAll ops this)
  ∧ {| userId := "bob"; emoji := "heart" |} ∈ reactions this.
Proof.
  intros this ops.
  assert (Hin : {| userId := "bob"; emoji := "heart" |} ∈ reactions (runAll ops this))
    by apply list_elem_of_here.
  split; [exact Hin|]. exact (reactions_never_recorded ops this _ Hin).
Defined.

(** X3: once a reaction is removed, [addReaction] with the same user and
    emoji does not bring it back: the call is a no-op resolving to
    undefined. *)
Theorem addReaction_after_remove hookNow hookNow' u e this :
  let removed := (removeReaction hookNow u e this).1 in
  addReaction hookNow' u e removed = (removed, Undefined).
Proof.
  intros removed. rewrite addReaction_unfold.
  destruct (existsb _ _) eqn:Hex; [|done].
  apply existsb_sameReaction in Hex.
  apply removeReaction_elem_of in Hex as [_ Hne]. done.
Qed.

(** X4: the operations keep the timestamps in line with the status. On a
    message whose [readAt] is set exactly when it is read and whose
    [deliveredAt] is unset while it is sent (as on a new message), the same
    holds after any sequence of operations, and the virtual [isRead] is true
    exactly when the status is read. *)
Theorem lifecycle_coherent ops this :
  coherent this →
  let m := runAll ops this in
  (status m = READ ↔ readAt m ≠ None)
  ∧ (status m = SENT → deliveredAt m = None)
  ∧ (isRead m = true ↔ status m = READ).
Proof.
  intros Hc m. destruct (runAll_coherent ops this Hc) as [Hread Hsent].
  fold m in Hread, Hsent. split; [done|]. split; [done|].
  unfold isRead. rewrite orb_true_iff, !bool_decide_eq_true. tauto.
Qed.

Lemma lifecycle_coherent_witness :
  let this := fresh "m1" "alice" "bob" "c1" "hi" in
  let m := runAll [MarkAsDelivered 1 2; AddReaction 3 "bob" "heart"; MarkAsRead 4 5] this in
  coherent this ∧ (isRead m = true ↔ status m = READ).
Proof.
  intros this m.
  pose proof (fresh_coherent "m1" "alice" "bob" "c1" "hi") as Hc.
  split; [exact Hc|].
  exact (proj2 (proj2 (lifecycle_coherent
    [MarkAsDelivered 1 2; AddReaction 3 "bob" "heart"; MarkAsRead 4 5] this Hc))).
Defined.

(** X5: each timestamp is written once. On a message whose timestamps are in
    line with its status, a [deliveredAt] or [readAt] that is set keeps its
    value through any sequence of operations. *)
Theorem timestamps_written_once ops this :
  coherent this →
  (∀ d, deliveredAt this = Some d → deliveredAt (runAll ops this) = Some d)
  ∧ (∀ d, readAt this = Some d → readAt (runAll ops this) = Some d).
Proof.
  revert this. induction ops as [|op ops IH]; intros this Hc; [done|].
  destruct (IH (run op this).1 (run_coherent op this Hc)) as [IHd IHr].
  destruct Hc as [Hread Hsent].
  split; intros d Hd.
  - apply IHd. destruct op as [n h|n h|h u e|h u e].
    + unfold run. rewrite markAsDelivered_not_sent; [done|].
      intros Hst. apply Hsent in Hst. congruence.
    + unfold run. destruct (decide (status this = READ)) as [Hst|Hst].
      * by rewrite markAsRead_read.
      * by rewrite markAsRead_not_read.
    + destruct (run_reaction_frame (AddReaction h u e) this) as (_ & Hd' & _).
      by rewrite Hd'.
    + destruct (run_reaction_frame (RemoveReaction h u e) this) as (_ & Hd' & _).
      by rewrite Hd'.
  - apply IHr. destruct op as [n h|n h|h u e|h u e].
    + unfold run. destruct (decide (status this = SENT)) as [Hst|Hst].
      * by rewrite markAsDelivered_sent.
      * by rewrite markAsDelivered_not_sent.
    + unfold run. rewrite markAsRead_read; [done|].
      apply Hread. congruence.
    + destruct (run_reaction_frame (AddReaction h u e) this) as (_ & _ & Hr').
      by rewrite Hr'.
    + destruct (run_reaction_frame (RemoveReaction h u e) this) as (_ & _ & Hr').
      by rewrite Hr'.
Qed.

Lemma timestamps_written_once_witness :
  let this := (markAsDelivered 1 2 (fresh "m1" "alice" "bob" "c1" "hi")).1 in
  let ops := [MarkAsDelivered 3 4; MarkAsRead 5 6; MarkAsDelivered 7 8] in
  coherent this ∧ deliveredAt this = Some 2
  ∧ deliveredAt (runAll ops this) = Some 2.
Proof.
  intros this ops.
  assert (Hc : coherent this).
  { apply (run_coherent (MarkAsDelivered 1 2)), fresh_coherent. }
  split; [exact Hc|]. split; [reflexivity|].
  exact (proj1 (timestamps_written_once ops this Hc) 2 eq_refl).
Defined.

(** X6: a message that counts as read ([isRead]) counts as read after any
    sequence of operations. *)
Theorem isRead_stable ops this :
  isRead this = true → isRead (runAll ops this) = true.
Proof.
  revert this. induction ops as [|op ops IH]; intros this Hr; [done|].
  apply (IH (run op this).1). clear IH.
  unfold isRead in *. apply orb_true_iff in Hr. apply orb_true_iff.
  rewrite !bool_decide_eq_true in *.
  destruct op as [n h|n h|h u e|h u e].
  - unfold run. destruct (decide (status this = SENT)) as [Hst|Hst].
    + rewrite markAsDelivered_sent by done. simpl.
      destruct Hr as [Hr|Hr]; [congruence|by right].
    + by rewrite markAsDelivered_not_sent.
  - left. apply markAsRead_status.
  - destruct (run_reaction_frame (AddReaction h u e) this) as (Hs & _ & Hr').
    by rewrite Hs, Hr'.
  - destruct (run_reaction_frame (RemoveReaction h u e) this) as (Hs & _ & Hr').
    by rewrite Hs, Hr'.
Qed.

Lemma isRead_stable_witness :
  let this := (markAsRead 1 2 (fresh "m1" "alice" "bob" "c1" "hi")).1 in
  let ops := [MarkAsDelivered 3 4; RemoveReaction 5 "bob" "heart"] in
  isRead this = true ∧ isRead (runAll ops this) = true.
Proof.
  intros this ops.
  split; [reflexivity|]. exact (isRead_stable ops this eq_refl).
Defined.

(** X7: [markAsDelivered] is idempotent: whatever the message, a second
    call is a no-op resolving to undefined, so [deliveredAt] keeps the value
    of the first call. *)
Theorem markAsDelivered_idempotent now hookNow now' hookNow' this :
  let once := (markAsDelivered now hookNow this).1 in
  markAsDelivered now' hookNow' once = (once, Undefined)
  ∧ status once ≠ SENT.
Proof.
  intros once.
  assert (Hst : status once ≠ SENT).
  { subst once. destruct (decide (status this = SENT)) as [Hst|Hst].
    - by rewrite markAsDelivered_sent.
    - by rewrite markAsDelivered_not_sent. }
  split; [|done]. by apply markAsDelivered_not_sent.
Qed.

(** X8: a sent message that is marked delivered and then read is read and
    carries both timestamps, each from the save that made the transition;
    the later [markAsRead] does not touch [deliveredAt]. *)
Theorem delivered_then_read now hookNow now' hookNow' this :
  status this = SENT →
  let m := (markAsRead now' hookNow' (markAsDelivered now hookNow this).1).1 in
  status m = READ
  ∧ deliveredAt m = Some hookNow
  ∧ readAt m = Some hookNow'.
Proof.
  intros Hst m. subst m.
  rewrite markAsDelivered_sent by done. cbn [fst].
  rewrite markAsRead_not_read by done. simpl. done.
Qed.

Lemma delivered_then_read_witness :
  let this := fresh "m1" "alice" "bob" "c1" "hi" in
  let m := (markAsRead 3 4 (markAsDelivered 1 2 this).1).1 in
  status this = SENT
  ∧ status m = READ ∧ deliveredAt m = Some 2 ∧ readAt m = Some 4.
Proof.
  intros this m.
  pose proof (delivered_then_read 1 2 3 4 this eq_refl) as (H1 & H2 & H3).
  split; [reflexivity|]. split; [exact H1|]. split; [exact H2|exact H3].
Defined.

(** X9: the bulk update agrees with the method: [markConversationAsRead]
    gives every message of the conversation addressed to the reader the
    document that [markAsRead] gives it (with the same time reading), and
    leaves the other messages as they are. *)
Theorem markConversationAsRead_as_markAsRead t c u coll :
  markConversationAsRead t c u coll =
    List.map (fun m => if bool_decide (conversationId m = c ∧ receiverId m = u)
                       then (markAsRead t t m).1 else m) coll.
Proof.
  unfold markConversationAsRead, updateMany. apply map_ext. intros m.
  destruct (matches (unreadIn c u) m) eqn:Hm.
  - apply unreadIn_spec in Hm as (Hc & Hu & Hst).
    rewrite bool_decide_eq_true_2 by done. by rewrite markAsRead_not_read.
  - case_bool_decide as Hcu; [|done].
    destruct (decide (status m = READ)) as [Hst|Hst].
    + by rewrite markAsRead_read.
    + assert (matches (unreadIn c u) m = true) by (apply unreadIn_spec; tauto).
      congruence.
Qed.

Lemma unreadFor_after_bulk t c u v m :
  matches (unreadFor v)
    (if matches (unreadIn c u) m then set_readAt (Some t) (set_status READ m) else m)
  = matches (unreadFor v) m
    && negb (bool_decide (v = u) && bool_decide (conversationId m = c)).
Proof.
  destruct (matches (unreadIn c u) m) eqn:Hm.
  - apply unreadIn_spec in Hm as (Hc & Hu & Hst).
    destruct (matches (unreadFor v) m) eqn:Hv.
    + apply unread_filter_spec in Hv as (Hv & _ & _).
      rewrite !bool_decide_eq_true_2 by congruence. simpl.
      apply not_true_is_false. rewrite unread_filter_spec. simpl. tauto.
    + simpl. apply not_true_is_false. intros Hv'. apply not_true_iff_false in Hv.
      apply Hv. apply unread_filter_spec. apply unread_filter_spec in Hv'.
      simpl in Hv'. tauto.
  - destruct (matches (unreadFor v) m) eqn:Hv; [|done]. simpl.
    apply unread_filter_spec in Hv as (Hv & Hst & _).
    apply not_true_iff_false in Hm. symmetry. apply negb_true_iff, not_true_is_false.
    rewrite andb_true_iff, !bool_decide_eq_true. intros [-> Hc].
    apply Hm, unreadIn_spec. tauto.
Qed.

(** X10: after [markConversationAsRead] for a reader, the reader's unread
    count is the number of unread, non-deleted messages addressed to them
    in the other conversations, so it is 0 when all their messages are in
    that conversation; the unread count of every other user is unchanged. *)
Theorem unread_after_markConversationAsRead t c u coll :
  getUnreadCount u (markConversationAsRead t c u coll)
  = Z.of_nat (length (filter (fun m => receiverId m = u ∧ status m ≠ READ
                                       ∧ isDeleted m = false ∧ conversationId m ≠ c) coll))
  ∧ (∀ v, v ≠ u →
       getUnreadCount v (markConversationAsRead t c u coll) = getUnreadCount v coll)
  ∧ (Forall (fun m => receiverId m = u → conversationId m = c) coll →
       getUnreadCount u (markConversationAsRead t c u coll) = 0).
Proof.
  assert (Hcount : ∀ v,
    List.filter (matches (unreadFor v)) (markConversationAsRead t c u coll)
    = List.map (fun m => if matches (unreadIn c u) m
                         then set_readAt (Some t) (set_status READ m) else m)
        (List.filter (fun m => matches (unreadFor v) m
                       && negb (bool_decide (v = u) && bool_decide (conversationId m = c)))
           coll)).
  { intros v. unfold markConversationAsRead, updateMany.
    induction coll as [|m coll IH]; simpl; [done|].
    rewrite unreadFor_after_bulk.
    destruct (matches (unreadFor v) m && _); simpl; by rewrite IH. }
  assert (Hu : getUnreadCount u (markConversationAsRead t c u coll)
    = Z.of_nat (length (filter (fun m => receiverId m = u ∧ status m ≠ READ
                                  ∧ isDeleted m = false ∧ conversationId m ≠ c) coll))).
  { unfold getUnreadCount, countDocuments. rewrite Hcount, length_map. f_equal.
    apply length_filter_bool_prop. intros m.
    rewrite andb_true_iff, unread_filter_spec, negb_true_iff.
    rewrite bool_decide_eq_true_2 by done. simpl. rewrite bool_decide_eq_false. tauto. }
  split; [done|]. split.
  - intros v Hv. unfold getUnreadCount, countDocuments.
    rewrite Hcount, length_map. do 2 f_equal.
    apply filter_ext. intros m. rewrite (bool_decide_eq_false_2 (v = u)) by done.
    simpl. by rewrite andb_true_r.
  - intros Hall. rewrite Hu. clear Hu Hcount.
    induction Hall as [|m coll Hm Hall IH]; [done|].
    rewrite filter_cons, decide_False; [done|]. tauto.
Qed.

Lemma unread_after_markConversationAsRead_witness :
  let m1 := fresh "m1" "alice" "bob" "c1" "hi" in
  let m2 := fresh "m2" "carol" "bob" "c2" "yo" in
  let m3 := fresh "m3" "bob" "alice" "c1" "re" in
  getUnreadCount "bob" [m1; m2; m3] = 2
  ∧ getUnreadCount "bob" (markConversationAsRead 9 "c1" "bob" [m1; m2; m3]) = 1
  ∧ "alice" ≠ "bob"
  ∧ getUnreadCount "alice" (markConversationAsRead 9 "c1" "bob" [m1; m2; m3]) = 1.
Proof.
  intros m1 m2 m3.
  pose proof (unread_after_markConversationAsRead 9 "c1" "bob" [m1; m2; m3])
    as (Hu & Hv & _).
  assert (Hne : "alice" ≠ "bob") by discriminate.
  split; [reflexivity|]. split; [rewrite Hu; reflexivity|].
  split; [exact Hne|]. rewrite (Hv "alice" Hne). reflexivity.
Defined.

End MessageLifecycle.

(** ** Further properties of conversations *)

Section ConversationMore.

Import Conversation.

Implicit Types (this c : Conversation) (s : Store) (a b u userId : ObjectId).

(** The two cases of the pre-save hook. *)
Lemma pre_save_cases c :
  (type c = direct ∧ ∃ a b p q,
     participants c = [a; b] ∧ pre_save c = set_participants [p; q] c
     ∧ String.leb p q = true ∧ ([p; q] = [a; b] ∨ [p; q] = [b; a]))
  ∨ (¬ (type c = direct ∧ length (participants c) = 2%nat) ∧ pre_save c = c).
Proof.
  unfold pre_save. destruct (bool_decide (type c = direct)) eqn:Hty.
  2: { right. apply bool_decide_eq_false in Hty. tauto. }
  destruct (bool_decide (length (participants c) = 2%nat)) eqn:Hlen.
  2: { right. apply bool_decide_eq_false in Hlen. tauto. }
  apply bool_decide_eq_true in Hty, Hlen. left. split; [done|].
  destruct (participants c) as [|a [|b [|? ?]]] eqn:Hps; try done.
  cbn [andb]. destruct (sort_pair_sorted a b) as (p & q & Hs & Hpq & _).
  exists a, b, p, q. rewrite Hs. split; [done|]. split; [done|]. split; [done|].
  rewrite sort_pair in Hs. destruct (_ <=? _); inversion Hs; tauto.
Qed.

Lemma pre_save_participants_elem c x :
  x ∈ participants (pre_save c) ↔ x ∈ participants c.
Proof.
  destruct (pre_save_cases c) as [(_ & a & b & p & q & Hps & Heq & _ & Hpq)|[_ Heq]];
    rewrite Heq; [|done].
  simpl. rewrite Hps. destruct Hpq as [Hpq|Hpq]; rewrite Hpq; [done|].
  rewrite !elem_of_cons, !elem_of_nil. tauto.
Qed.

Lemma pre_save_id c : _id (pre_save c) = _id c.
Proof. unfold pre_save. by destruct (_ && _). Qed.

Lemma pre_save_type c : type (pre_save c) = type c.
Proof. unfold pre_save. by destruct (_ && _). Qed.

(** X11: saving puts the two participants of a direct conversation in
    lexicographic order whatever order they were given in; it keeps the
    same participants; and saving a second time changes nothing. *)
Theorem pre_save_canonicalises c :
  pre_save (pre_save c) = pre_save c
  ∧ (∀ x, x ∈ participants (pre_save c) ↔ x ∈ participants c)
  ∧ (type c = direct → length (participants c) = 2%nat → canonical (pre_save c)).
Proof.
  split; [|split; [apply pre_save_participants_elem|]].
  - destruct (pre_save_cases c) as [(Hty & a & b & p & q & Hps & Heq & Hpq & _)|[_ Heq]].
    + rewrite Heq. apply pre_save_canonical. split; [done|]. by exists p, q.
    + by rewrite !Heq.
  - intros Hty Hlen.
    destruct (pre_save_cases c) as [(_ & a & b & p & q & Hps & Heq & Hpq & _)|[Hno _]].
    + rewrite Heq. split; [done|]. by exists p, q.
    + tauto.
Qed.

Lemma pre_save_canonicalises_witness :
  let c := {| _id := 0%nat; participants := ["bob"; "alice"]; lastMessage := None;
              lastMessageTime := 0; name := None; avatar := None; type := direct;
              mutedBy := []; archivedBy := []; messageCount := 0;
              createdBy := Some "bob" |} in
  type c = direct ∧ length (participants c) = 2%nat
  ∧ canonical (pre_save c) ∧ participants (pre_save c) = ["alice"; "bob"].
Proof.
  intros c. split; [reflexivity|]. split; [reflexivity|].
  split; [|reflexivity].
  exact (proj2 (proj2 (pre_save_canonicalises c)) eq_refl eq_refl).
Defined.

(** X12: in a direct conversation with participants [p] and [q],
    [getOtherParticipant] answers [p] to every user other than [p] (to [q],
    and also to a user who is not a participant), answers [q] to [p] when the
    two differ, and has no answer for the single participant of a
    conversation of a user with themselves; in a group conversation it has
    no answer at all. *)
Theorem getOtherParticipant_pair c p q :
  participants c = [p; q] →
  match type c with
  | direct =>
      (∀ u, u ≠ p → getOtherParticipant u c = Some p)
      ∧ (p ≠ q → getOtherParticipant p c = Some q)
      ∧ (p = q → getOtherParticipant p c = None)
  | group => ∀ u, getOtherParticipant u c = None
  end.
Proof.
  intros Hps. unfold getOtherParticipant. rewrite Hps.
  destruct (type c); [|done]. simpl.
  split; [|split].
  - intros u Hu. by rewrite (bool_decide_eq_false_2 (p = u)).
  - intros Hpq. rewrite (bool_decide_eq_true_2 (p = p)) by done. simpl.
    by rewrite (bool_decide_eq_false_2 (q = p)).
  - intros <-. by rewrite (bool_decide_eq_true_2 (p = p)).
Qed.

Lemma getOtherParticipant_pair_witness :
  let c := {| _id := 0%nat; participants := ["alice"; "bob"]; lastMessage := None;
              lastMessageTime := 0; name := None; avatar := None; type := direct;
              mutedBy := []; archivedBy := []; messageCount := 0;
              createdBy := Some "bob" |} in
  participants c = ["alice"; "bob"]
  ∧ getOtherParticipant "bob" c = Some "alice"
  ∧ getOtherParticipant "alice" c = Some "bob"
  ∧ getOtherParticipant "mallory" c = Some "alice".
Proof.
  intros c.
  pose proof (getOtherParticipant_pair c "alice" "bob" eq_refl) as (Hu & Hp & _).
  split; [reflexivity|]. split; [apply Hu; discriminate|].
  split; [apply Hp; discriminate|apply Hu; discriminate].
Defined.

(** X13: after any sequence of resolutions from the empty collection, the
    conversation resolved for two different users has exactly the sorted
    pair as participants, and [getOtherParticipant] maps each of the two
    users to the other. *)
Theorem resolve_then_other schemaDate calls a b :
  a ≠ b →
  ∃ c s1,
    findOrCreateConversation schemaDate a b (resolveAll schemaDate calls empty)
      = (inr c, s1)
    ∧ participants c = Array_sort localeCompare [a; b]
    ∧ getOtherParticipant a c = Some b
    ∧ getOtherParticipant b c = Some a.
Proof.
  intros Hab.
  assert (Hs : consistent (resolveAll schemaDate calls empty))
    by apply resolveAll_consistent, empty_consistent.
  destruct (findOrCreateConversation_consistent schemaDate a b _ Hs)
    as (c & s1 & Hcall & [Hcan _] & Hfind).
  exists c, s1. split; [done|].
  apply find_some in Hfind as [Hin Hq]. apply list_elem_of_In in Hin.
  destruct (proj1 (Forall_forall _ _) Hcan c Hin) as [Hty (p & q & Hps & Hpq)].
  destruct (sort_pair_sorted a b) as (p' & q' & Hsort & Hpq' & Ha & Hb).
  rewrite Hsort in Hq |- *.
  apply all_participants_direct_pair in Hq as (Hp' & Hq' & _).
  rewrite Hps in Hp', Hq'.
  assert (Hne : p' ≠ q').
  { intros ->. apply Hab. set_solver. }
  assert (Heq : p = p' ∧ q = q').
  { apply elem_of_cons in Hp' as [->|Hp']; apply elem_of_cons in Hq' as [->|Hq'];
      try done.
    - apply list_elem_of_singleton in Hq'. by subst.
    - apply list_elem_of_singleton in Hp'. subst.
      exfalso. apply Hne. by apply String.leb_antisym.
    - apply list_elem_of_singleton in Hp', Hq'. congruence. }
  destruct Heq as [-> ->]. split; [done|].
  unfold getOtherParticipant. rewrite Hty, Hps. simpl.
  assert (Hcases : (a = p' ∧ b = q') ∨ (a = q' ∧ b = p')) by set_solver.
  destruct Hcases as [[-> ->]|[-> ->]];
    repeat case_bool_decide; simpl; split; congruence.
Qed.

Lemma resolve_then_other_witness :
  "bob" ≠ "alice"
  ∧ ∃ c s1,
      findOrCreateConversation 0 "bob" "alice"
        (resolveAll 0 [("alice", "carol"); ("alice", "bob")] empty) = (inr c, s1)
      ∧ getOtherParticipant "bob" c = Some "alice".
Proof.
  assert (Hne : "bob" ≠ "alice") by discriminate.
  split; [exact Hne|].
  destruct (resolve_then_other 0 [("alice", "carol"); ("alice", "bob")] "bob" "alice" Hne)
    as (c & s1 & Hcall & _ & Hb & _).
  exists c, s1. split; [exact Hcall|exact Hb].
Defined.

(** X14: resolutions only append: over any sequence of calls the
    conversations stored before stay, unchanged and at their positions, and
    at most one conversation per call is added. *)
Theorem resolveAll_append_only schemaDate calls s :
  docs s `prefix_of` docs (resolveAll schemaDate calls s)
  ∧ (length (docs (resolveAll schemaDate calls s))
     ≤ length (docs s) + length calls)%nat.
Proof.
  revert s. induction calls as [|[a b] calls IH]; intros s.
  { simpl. split; [done|lia]. }
  simpl. destruct (IH (findOrCreateConversation schemaDate a b s).2) as [Hpre Hlen].
  assert (Hstep : docs s `prefix_of` docs (findOrCreateConversation schemaDate a b s).2
                  ∧ (length (docs (findOrCreateConversation schemaDate a b s).2)
                     ≤ S (length (docs s)))%nat).
  { unfold findOrCreateConversation, findOrCreateConversation_among.
    destruct (findOne _ s); [split; [done|simpl; lia]|].
    unfold create. destruct (unique_participants_direct_chat _ s); simpl.
    - split; [by apply prefix_app_r|]. rewrite length_app. simpl. lia.
    - split; [done|lia]. }
  destruct Hstep as [Hpre1 Hlen1]. split; [by etrans|lia].
Qed.

Lemma find_ext_eq {A} (f g : A → bool) (l : list A) :
  (∀ x, f x = g x) → List.find f l = List.find g l.
Proof.
  intros Hfg. induction l as [|x l IH]; simpl; [done|]. by rewrite Hfg, IH.
Qed.

(** X15: resolving a user with themselves does not look for a conversation
    of that user alone: when the user takes part in some direct conversation
    of the collection, the call returns the first such conversation, whoever
    the other participant is, and stores nothing. *)
Theorem resolve_self_returns_any schemaDate a s c0 :
  c0 ∈ docs s → a ∈ participants c0 → type c0 = direct →
  ∃ c,
    findOrCreateConversation schemaDate a a s = (inr c, s)
    ∧ c ∈ docs s ∧ a ∈ participants c
    ∧ List.find (fun c => bool_decide (a ∈ participants c)
                          && bool_decide (type c = direct)) (docs s) = Some c.
Proof.
  intros Hin Ha Hty.
  assert (Hq : ∀ c, all_participants_direct (Array_sort localeCompare [a; a]) c
                    = bool_decide (a ∈ participants c) && bool_decide (type c = direct)).
  { intros c. rewrite sort_pair, localeCompare_le, leb_refl.
    unfold all_participants_direct. simpl. by destruct (bool_decide (a ∈ participants c)). }
  unfold findOrCreateConversation, findOrCreateConversation_among, findOne.
  destruct (List.find _ (docs s)) as [c|] eqn:Hfind.
  - exists c. split; [done|].
    pose proof (find_some _ _ Hfind) as [Hc Hqc].
    rewrite Hq in Hqc. apply andb_true_iff in Hqc as [Hac _].
    apply bool_decide_eq_true in Hac.
    split; [by apply list_elem_of_In|]. split; [done|].
    rewrite <- Hfind. apply find_ext_eq. intros c'. by rewrite Hq.
  - exfalso.
    pose proof (find_none _ _ Hfind c0 (proj1 (list_elem_of_In _ _) Hin)) as Hno.
    rewrite Hq, !bool_decide_eq_true_2 in Hno by done. done.
Qed.

Lemma resolve_self_returns_any_witness :
  let s := resolveAll 0 [("alice", "bob")] empty in
  ∃ c0, c0 ∈ docs s ∧ "alice" ∈ participants c0 ∧ type c0 = direct
        ∧ ∃ c, findOrCreateConversation 0 "alice" "alice" s = (inr c, s)
               ∧ participants c = ["alice"; "bob"].
Proof.
  intros s.
  assert (Hc0 : ∃ c0, docs s = [c0] ∧ participants c0 = ["alice"; "bob"]
                      ∧ type c0 = direct) by (eexists; repeat split).
  destruct Hc0 as (c0 & Hdocs & Hps & Hty).
  assert (Hin : c0 ∈ docs s) by (rewrite Hdocs; apply list_elem_of_here).
  assert (Ha : "alice" ∈ participants c0) by (rewrite Hps; apply list_elem_of_here).
  exists c0. split; [exact Hin|]. split; [exact Ha|]. split; [exact Hty|].
  destruct (resolve_self_returns_any 0 "alice" s c0 Hin Ha Hty)
    as (c & Hcall & Hc & _ & _).
  exists c. split; [exact Hcall|].
  rewrite Hdocs in Hc. apply list_elem_of_singleton in Hc. by rewrite Hc.
Defined.

Lemma toggleMute_mutedBy userId c :
  mutedBy (toggleMute userId c).1 =
    if indexOf userId (mutedBy c) >? -1
    then splice1 (indexOf userId (mutedBy c)) (mutedBy c)
    else mutedBy c ++ [userId].
Proof.
  unfold toggleMute, save. cbn [fst]. rewrite pre_save_mutedBy. by destruct (_ >? _).
Qed.

Lemma toggleArchive_archivedBy userId c :
  archivedBy (toggleArchive userId c).1 =
    if indexOf userId (archivedBy c) >? -1
    then splice1 (indexOf userId (archivedBy c)) (archivedBy c)
    else archivedBy c ++ [userId].
Proof.
  unfold toggleArchive, save. cbn [fst]. rewrite pre_save_archivedBy.
  by destruct (_ >? _).
Qed.

Lemma toggleMute_frame userId c :
  archivedBy (toggleMute userId c).1 = archivedBy c
  ∧ ∀ x, x ∈ participants (toggleMute userId c).1 ↔ x ∈ participants c.
Proof.
  unfold toggleMute, save. cbn [fst]. rewrite pre_save_archivedBy. split.
  - by destruct (_ >? _).
  - intros x. rewrite pre_save_participants_elem. by destruct (_ >? _).
Qed.

Lemma toggleArchive_frame userId c :
  mutedBy (toggleArchive userId c).1 = mutedBy c
  ∧ ∀ x, x ∈ participants (toggleArchive userId c).1 ↔ x ∈ participants c.
Proof.
  unfold toggleArchive, save. cbn [fst]. rewrite pre_save_mutedBy. split.
  - by destruct (_ >? _).
  - intros x. rewrite pre_save_participants_elem. by destruct (_ >? _).
Qed.

(** Pushing an absent user and toggling again gives the list back. *)
Lemma toggle_push_pop userId (l : list ObjectId) :
  userId ∉ l →
  indexOf userId l = -1
  ∧ indexOf userId (l ++ [userId]) = Z.of_nat (length l)
  ∧ splice1 (Z.of_nat (length l)) (l ++ [userId]) = l.
Proof.
  intros Hout. unfold indexOf, splice1. split; [|split].
  - destruct (list_find _ l) as [[i y]|] eqn:Hfind; [|done].
    apply list_find_Some in Hfind as (Hi & -> & _).
    exfalso. apply Hout. by eapply list_elem_of_lookup_2.
  - destruct (list_find _ (l ++ [userId])) as [[i y]|] eqn:Hfind.
    + apply list_find_Some in Hfind as (Hi & -> & _).
      apply lookup_app_Some in Hi as [Hi|[Hlen Hi]].
      * exfalso. apply Hout. by eapply list_elem_of_lookup_2.
      * apply list_lookup_singleton_Some in Hi as [Hi _]. f_equal. lia.
    + apply list_find_None in Hfind. exfalso.
      apply (proj1 (Forall_forall _ _) Hfind userId); [|done].
      apply elem_of_app. right. apply list_elem_of_here.
  - rewrite Nat2Z.id, delete_take_drop.
    rewrite take_app_length, drop_ge; [by rewrite app_nil_r|].
    rewrite length_app. simpl. lia.
Qed.

Lemma toggle_list_twice userId (l : list ObjectId) :
  NoDup l →
  let toggled l := if indexOf userId l >? -1 then splice1 (indexOf userId l) l
                   else l ++ [userId] in
  (∀ v, v ∈ toggled (toggled l) ↔ v ∈ l)
  ∧ NoDup (toggled (toggled l))
  ∧ (userId ∉ l → toggled (toggled l) = l).
Proof.
  intros Hnd toggled.
  destruct (toggle_list userId l Hnd) as (Hflip1 & Hrest1 & Hnd1).
  destruct (toggle_list userId _ Hnd1) as (Hflip2 & Hrest2 & Hnd2).
  fold (toggled l) in Hflip1, Hrest1, Hnd1, Hflip2, Hrest2, Hnd2.
  fold (toggled (toggled l)) in Hflip2, Hrest2, Hnd2.
  split; [|split; [done|]].
  - intros v. destruct (decide (v = userId)) as [->|Hv].
    + rewrite Hflip2, Hflip1. destruct (decide (userId ∈ l)); tauto.
    + by rewrite Hrest2, Hrest1.
  - intros Hout. destruct (toggle_push_pop userId l Hout) as (Hi1 & Hi2 & Hdel).
    unfold toggled at 2. rewrite Hi1. simpl.
    unfold toggled. rewrite Hi2.
    replace (Z.of_nat (length l) >? -1) with true by (symmetry; apply Z.gtb_lt; lia).
    done.
Qed.

(** X16: toggling twice restores the membership of every user in the list
    (which holds no duplicates), and restores the list itself when the
    user was not in it; a conversation muted or archived and then toggled
    again is neither muted nor archived for that user. *)
Theorem toggle_twice userId this :
  NoDup (mutedBy this) → NoDup (archivedBy this) →
  let muted := (toggleMute userId (toggleMute userId this).1).1 in
  let archived := (toggleArchive userId (toggleArchive userId this).1).1 in
  ((∀ v, v ∈ mutedBy muted ↔ v ∈ mutedBy this)
   ∧ NoDup (mutedBy muted)
   ∧ (userId ∉ mutedBy this → mutedBy muted = mutedBy this)
   ∧ isMutedFor userId muted = isMutedFor userId this)
  ∧ ((∀ v, v ∈ archivedBy archived ↔ v ∈ archivedBy this)
     ∧ NoDup (archivedBy archived)
     ∧ (userId ∉ archivedBy this → archivedBy archived = archivedBy this)
     ∧ isArchivedFor userId archived = isArchivedFor userId this).
Proof.
  intros Hm Ha muted archived. split.
  - destruct (toggle_list_twice userId (mutedBy this) Hm) as (Hin & Hnd & Hid).
    subst muted. rewrite !isMutedFor_spec, !toggleMute_mutedBy.
    split; [done|]. split; [done|]. split; [done|].
    apply bool_decide_ext, Hin.
  - destruct (toggle_list_twice userId (archivedBy this) Ha) as (Hin & Hnd & Hid).
    subst archived. rewrite !isArchivedFor_spec, !toggleArchive_archivedBy.
    split; [done|]. split; [done|]. split; [done|].
    apply bool_decide_ext, Hin.
Qed.

Lemma toggle_twice_witness :
  let c := {| _id := 0%nat; participants := ["alice"; "bob"]; lastMessage := None;
              lastMessageTime := 0; name := None; avatar := None; type := direct;
              mutedBy := ["bob"]; archivedBy := []; messageCount := 0;
              createdBy := Some "alice" |} in
  NoDup (mutedBy c) ∧ NoDup (archivedBy c)
  ∧ isMutedFor "bob" (toggleMute "bob" (toggleMute "bob" c).1).1 = isMutedFor "bob" c
  ∧ archivedBy (toggleArchive "bob" (toggleArchive "bob" c).1).1 = archivedBy c.
Proof.
  intros c.
  assert (Hm : NoDup (mutedBy c)) by (apply NoDup_singleton).
  assert (Ha : NoDup (archivedBy c)) by (apply NoDup_nil_2).
  pose proof (toggle_twice "bob" c Hm Ha) as [(_ & _ & _ & Hmute) (_ & _ & Harch & _)].
  split; [exact Hm|]. split; [exact Ha|]. split; [exact Hmute|].
  apply Harch. apply not_elem_of_nil.
Defined.

Lemma sort_insert_perm {A} (compareFn : A → A → Z) x (l : list A) :
  sort_insert compareFn x l ≡ₚ x :: l.
Proof.
  induction l as [|y l IH]; simpl; [done|].
  destruct (compareFn x y <=? 0); [done|].
  rewrite IH. apply Permutation_swap.
Qed.

Lemma Array_sort_perm {A} (compareFn : A → A → Z) (l : list A) :
  Array_sort compareFn l ≡ₚ l.
Proof.
  induction l as [|x l IH]; simpl; [done|].
  unfold Array_sort in *. simpl. by rewrite sort_insert_perm, IH.
Qed.

(** Latest first. *)
Lemma sort_insert_latest_first x (l : list Conversation) :
  StronglySorted (fun c c' => lastMessageTime c' ≤ lastMessageTime c) l →
  StronglySorted (fun c c' => lastMessageTime c' ≤ lastMessageTime c)
    (sort_insert byLastMessageTimeDesc x l).
Proof.
  induction 1 as [|y l Hl IH Hy]; simpl.
  { constructor; constructor. }
  unfold byLastMessageTimeDesc at 1.
  destruct (lastMessageTime y - lastMessageTime x <=? 0) eqn:Hcmp.
  - apply Z.leb_le in Hcmp. constructor; [by constructor|].
    constructor; [lia|].
    eapply Forall_impl; [exact Hy|]. simpl. intros z Hz. lia.
  - apply Z.leb_gt in Hcmp. constructor; [done|].
    rewrite sort_insert_perm. constructor; [lia|done].
Qed.

(** X17: [getUserConversations] lists exactly the stored conversations in
    which the user is a participant and which the user has not archived,
    each as many times as it is stored, the latest [lastMessageTime]
    first. *)
Theorem getUserConversations_listing userId s :
  getUserConversations userId s
    ≡ₚ filter (fun c => userId ∈ participants c ∧ userId ∉ archivedBy c) (docs s)
  ∧ StronglySorted (fun c c' => lastMessageTime c' ≤ lastMessageTime c)
      (getUserConversations userId s).
Proof.
  unfold getUserConversations. split.
  - rewrite Array_sort_perm.
    induction (docs s) as [|c l IH]; simpl; [done|].
    rewrite filter_cons. unfold listedFor at 1.
    repeat case_bool_decide; simpl; case_decide; try tauto; by rewrite ?IH.
  - induction (List.filter _ _) as [|c l IH]; [constructor|].
    apply sort_insert_latest_first, IH.
Qed.

(** X18: archiving hides and unarchiving shows: for a participant,
    [toggleArchive] flips whether the conversation is selected by the query
    of [getUserConversations] for that user, and does not change it for any
    other user; [toggleMute] changes it for nobody. *)
Theorem toggleArchive_listing userId this :
  NoDup (archivedBy this) → userId ∈ participants this →
  listedFor userId (toggleArchive userId this).1 = negb (listedFor userId this)
  ∧ (∀ v, v ≠ userId →
       listedFor v (toggleArchive userId this).1 = listedFor v this)
  ∧ (∀ v, listedFor v (toggleMute userId this).1 = listedFor v this).
Proof.
  intros Hnd Hpart.
  destruct (toggle_list userId (archivedBy this) Hnd) as (Hflip & Hrest & _).
  rewrite <- toggleArchive_archivedBy in Hflip, Hrest.
  destruct (toggleArchive_frame userId this) as [_ Hps].
  destruct (toggleMute_frame userId this) as [Harch Hps'].
  unfold listedFor. split; [|split].
  - rewrite (bool_decide_ext _ _ (Hps userId)), (bool_decide_ext _ _ Hflip).
    rewrite (bool_decide_eq_true_2 _ Hpart). simpl.
    destruct (decide (userId ∈ archivedBy this)) as [Hin|Hout].
    + rewrite (bool_decide_eq_true_2 _ Hin).
      by rewrite (bool_decide_eq_false_2 (userId ∉ archivedBy this)) by tauto.
    + rewrite (bool_decide_eq_false_2 _ Hout).
      by rewrite (bool_decide_eq_true_2 (userId ∉ archivedBy this)).
  - intros v Hv.
    by rewrite (bool_decide_ext _ _ (Hps v)), (bool_decide_ext _ _ (Hrest v Hv)).
  - intros v. by rewrite (bool_decide_ext _ _ (Hps' v)), Harch.
Qed.

Lemma toggleArchive_listing_witness :
  let c := {| _id := 0%nat; participants := ["alice"; "bob"]; lastMessage := None;
              lastMessageTime := 0; name := None; avatar := None; type := direct;
              mutedBy := []; archivedBy := []; messageCount := 0;
              createdBy := Some "alice" |} in
  NoDup (archivedBy c) ∧ "bob" ∈ participants c
  ∧ listedFor "bob" c = true
  ∧ listedFor "bob" (toggleArchive "bob" c).1 = false
  ∧ listedFor "alice" (toggleArchive "bob" c).1 = true.
Proof.
  intros c.
  assert (Ha : NoDup (archivedBy c)) by (apply NoDup_nil_2).
  assert (Hp : "bob" ∈ participants c) by (apply list_elem_of_further, list_elem_of_here).
  pose proof (toggleArchive_listing "bob" c Ha Hp) as (Hflip & Hrest & _).
  split; [exact Ha|]. split; [exact Hp|]. split; [reflexivity|].
  split; [rewrite Hflip; reflexivity|].
  rewrite (Hrest "alice"); [reflexivity|discriminate].
Defined.

End ConversationMore.

(** ** Further properties of the socket handlers *)

Section PresenceMore.

Import SocketHandler.

Implicit Types (st : State) (u : string) (socket : Socket).
Implicit Types (trace quiet : list Incoming).

Lemma serve_app trace trace' :
  serve (trace ++ trace') = foldl setupSocketHandlers (serve trace) trace'.
Proof. unfold serve. apply foldl_app. Qed.

Lemma openHandles_snoc u trace i :
  openHandles u (trace ++ [i]) =
    match i with
    | CONNECT _ socket =>
        if bool_decide (query_userId socket = Some u)
        then List.filter (fun s => negb (bool_decide (s = socket))) (openHandles u trace)
             ++ [socket]
        else openHandles u trace
    | DISCONNECT _ socket =>
        List.filter (fun s => negb (bool_decide (s = socket))) (openHandles u trace)
    | _ => openHandles u trace
    end.
Proof. unfold openHandles. by rewrite foldl_app. Qed.

Lemma last_filter_keep {A} (f : A → bool) (l : list A) x :
  last l = Some x → f x = true → last (List.filter f l) = Some x.
Proof.
  induction l as [|y l IH] using rev_ind; [done|].
  rewrite last_snoc. intros [= ->] Hf.
  rewrite List.filter_app. simpl. rewrite Hf. by rewrite last_snoc.
Qed.

(** A message or a typing notice leaves the map and the announcements as
    they are. *)
Lemma relayed_frame st i :
  relayed i = true →
  activeUsers (setupSocketHandlers st i) = activeUsers st
  ∧ (∀ u, statusOf u (setupSocketHandlers st i) = statusOf u st)
  ∧ (∀ u, lastSeenOf u (setupSocketHandlers st i) = lastSeenOf u st).
Proof.
  destruct i as [now socket|socket data|socket conv receiver|now socket]; try done;
    intros _; cbn [setupSocketHandlers].
  - unfold on_MESSAGE_SEND. destruct (activeUsers st !! receiverId data); [|done].
    split; [done|]. split; intros u; [by rewrite statusOf_emit|by rewrite lastSeenOf_emit].
  - unfold on_USER_TYPING. destruct (activeUsers st !! receiver); [|done].
    split; [done|]. split; intros u; [by rewrite statusOf_emit|by rewrite lastSeenOf_emit].
Qed.

Lemma relayed_all_frame quiet st :
  forallb relayed quiet = true →
  activeUsers (foldl setupSocketHandlers st quiet) = activeUsers st
  ∧ (∀ u, statusOf u (foldl setupSocketHandlers st quiet) = statusOf u st)
  ∧ (∀ u, lastSeenOf u (foldl setupSocketHandlers st quiet) = lastSeenOf u st).
Proof.
  revert st. induction quiet as [|i quiet IH]; intros st Hq; [done|].
  simpl in Hq. apply andb_true_iff in Hq as [Hi Hq]. simpl.
  destruct (IH (setupSocketHandlers st i) Hq) as (Hmap & Hst & Hseen).
  destruct (relayed_frame st i Hi) as (Hmap1 & Hst1 & Hseen1).
  split; [congruence|]. split; intros u; [by rewrite Hst|by rewrite Hseen].
Qed.

(** X19: an entry of [activeUsers] never points to a closed socket: after
    any trace, the socket id registered for a user is the id of the socket
    of that user that connected last, and that socket has not disconnected;
    and no entry is kept under the empty user id. *)
Theorem registry_entry_is_open trace u sid :
  activeUsers (serve trace) !! u = Some sid →
  u ≠ EmptyString
  ∧ ∃ socket, last (openHandles u trace) = Some socket
              ∧ id socket = sid ∧ query_userId socket = Some u.
Proof.
  revert sid. induction trace as [|i trace IH] using rev_ind; intros sid.
  { unfold serve. simpl. by rewrite lookup_empty. }
  rewrite serve_app, openHandles_snoc. cbn [foldl].
  destruct i as [now socket|socket data|socket conv receiver|now socket].
  - cbn [setupSocketHandlers]. unfold on_CONNECT.
    destruct (query_userId socket) as [v|] eqn:Hv.
    + destruct (truthy (Some v)) eqn:Htruthy.
      * cbn [activeUsers]. destruct (decide (v = u)) as [->|Hvu].
        -- rewrite lookup_insert_eq. intros [= <-].
           rewrite bool_decide_eq_true_2 by done. rewrite last_snoc.
           split; [|by exists socket].
           simpl in Htruthy. apply negb_true_iff in Htruthy.
           by apply bool_decide_eq_false in Htruthy.
        -- rewrite lookup_insert_ne by done.
           rewrite bool_decide_eq_false_2 by congruence. apply IH.
      * intros Hentry. destruct (IH sid Hentry) as [Hne Hopen].
        split; [done|]. rewrite bool_decide_eq_false_2; [done|].
        intros [= ->]. simpl in Htruthy. apply negb_false_iff in Htruthy.
        by apply bool_decide_eq_true in Htruthy.
    + intros Hentry. rewrite bool_decide_eq_false_2 by done. by apply IH.
  - intros Hentry. apply IH.
    by rewrite <- (proj1 (relayed_frame (serve trace) (MESSAGE_SEND socket data) eq_refl)).
  - intros Hentry. apply IH.
    by rewrite <- (proj1 (relayed_frame (serve trace)
                            (USER_TYPING socket conv receiver) eq_refl)).
  - cbn [setupSocketHandlers]. unfold on_DISCONNECT. cbn [activeUsers].
    intros Hentry.
    assert (Hold : activeUsers (serve trace) !! u = Some sid
                   ∧ query_userId socket ≠ Some u).
    { destruct (query_userId socket) as [v|]; [|done].
      destruct (decide (v = u)) as [->|Hvu].
      - by rewrite lookup_delete_eq in Hentry.
      - rewrite lookup_delete_ne in Hentry by done. split; [done|congruence]. }
    destruct Hold as [Hold Hother].
    destruct (IH sid Hold) as (Hne & s0 & Hlast & Hid & Hu).
    split; [done|]. exists s0. split; [|done].
    apply last_filter_keep; [done|].
    apply negb_true_iff, bool_decide_eq_false_2. intros ->. congruence.
Qed.

Lemma registry_entry_is_open_witness :
  let s1 := {| id := "s1"; query_userId := Some "alice" |} in
  let s2 := {| id := "s2"; query_userId := Some "alice" |} in
  let s3 := {| id := "s3"; query_userId := Some "bob" |} in
  let trace := [CONNECT 1 s1; CONNECT 2 s2; CONNECT 3 s3; DISCONNECT 4 s3] in
  activeUsers (serve trace) !! "alice" = Some "s2"
  ∧ ∃ socket, last (openHandles "alice" trace) = Some socket ∧ id socket = "s2".
Proof.
  intros s1 s2 s3 trace.
  assert (Hentry : activeUsers (serve trace) !! "alice" = Some "s2")
    by (vm_compute; reflexivity).
  split; [exact Hentry|].
  destruct (registry_entry_is_open trace "alice" "s2" Hentry)
    as (_ & socket & Hlast & Hid & _).
  exists socket. split; [exact Hlast|exact Hid].
Defined.

(** X20: messages and typing notices do not touch presence: whatever
    was served before, a run of such events leaves [activeUsers], the
    announced status and the announced [lastSeen] of every user as they
    were. *)
Theorem relayed_keep_presence trace quiet :
  forallb relayed quiet = true →
  activeUsers (serve (trace ++ quiet)) = activeUsers (serve trace)
  ∧ (∀ u, statusOf u (serve (trace ++ quiet)) = statusOf u (serve trace))
  ∧ (∀ u, lastSeenOf u (serve (trace ++ quiet)) = lastSeenOf u (serve trace)).
Proof. intros Hq. rewrite serve_app. by apply relayed_all_frame. Qed.

Lemma relayed_keep_presence_witness :
  let s1 := {| id := "s1"; query_userId := Some "alice" |} in
  let s2 := {| id := "s2"; query_userId := Some "bob" |} in
  let hello := {| receiverId := "alice"; content := "hi"; messageType := "text" |} in
  let quiet := [MESSAGE_SEND s2 hello; USER_TYPING s2 "c1" "alice"] in
  forallb relayed quiet = true
  ∧ statusOf "alice" (serve ([CONNECT 1 s1; CONNECT 2 s2] ++ quiet)) = online.
Proof.
  intros s1 s2 hello quiet.
  pose proof (relayed_keep_presence [CONNECT 1 s1; CONNECT 2 s2] quiet eq_refl)
    as (_ & Hst & _).
  split; [reflexivity|]. rewrite Hst. reflexivity.
Defined.

(** X21: routing. After a socket of a user connects, and until the next
    connection or disconnection, a message for the user is emitted to that
    socket alone, marked delivered; after a socket of the user disconnects,
    a message or a typing notice for the user is dropped: nothing is
    emitted and the state is unchanged. *)
Theorem relay_routing trace quiet now socket sender u data conversationId :
  forallb relayed quiet = true →
  query_userId socket = Some u → u ≠ EmptyString → receiverId data = u →
  let connected := serve (trace ++ [CONNECT now socket] ++ quiet) in
  let disconnected := serve (trace ++ [DISCONNECT now socket] ++ quiet) in
  setupSocketHandlers connected (MESSAGE_SEND sender data)
    = {| activeUsers := activeUsers connected;
         emitted := emitted connected
                    ++ [io_to_emit (id socket) (MESSAGE_RECEIVE data Message.DELIVERED)] |}
  ∧ setupSocketHandlers disconnected (MESSAGE_SEND sender data) = disconnected
  ∧ setupSocketHandlers disconnected (USER_TYPING sender conversationId u)
    = disconnected.
Proof.
  intros Hq Hu Hne Hdata connected disconnected.
  assert (Hc : activeUsers connected !! u = Some (id socket)).
  { subst connected. rewrite app_assoc, serve_app.
    rewrite (proj1 (relayed_all_frame quiet _ Hq)).
    rewrite serve_app. cbn [foldl setupSocketHandlers]. unfold on_CONNECT.
    rewrite Hu. simpl. rewrite (bool_decide_eq_false_2 (u = EmptyString)) by done.
    simpl. apply lookup_insert_eq. }
  assert (Hd : activeUsers disconnected !! u = None).
  { subst disconnected. rewrite app_assoc, serve_app.
    rewrite (proj1 (relayed_all_frame quiet _ Hq)).
    rewrite serve_app. cbn [foldl setupSocketHandlers]. unfold on_DISCONNECT.
    rewrite Hu. simpl. apply lookup_delete_eq. }
  cbn [setupSocketHandlers]. unfold on_MESSAGE_SEND, on_USER_TYPING.
  by rewrite Hdata, Hc, Hd.
Qed.

Lemma relay_routing_witness :
  let s1 := {| id := "s1"; query_userId := Some "alice" |} in
  let s2 := {| id := "s2"; query_userId := Some "bob" |} in
  let hello := {| receiverId := "alice"; content := "hi"; messageType := "text" |} in
  let quiet := [USER_TYPING s2 "c1" "alice"] in
  forallb relayed quiet = true ∧ query_userId s1 = Some "alice"
  ∧ "alice" ≠ EmptyString ∧ receiverId hello = "alice"
  ∧ setupSocketHandlers (serve ([CONNECT 1 s2] ++ [DISCONNECT 2 s1] ++ quiet))
      (MESSAGE_SEND s2 hello)
    = serve ([CONNECT 1 s2] ++ [DISCONNECT 2 s1] ++ quiet).
Proof.
  intros s1 s2 hello quiet.
  assert (Hne : "alice" ≠ EmptyString) by discriminate.
  pose proof (relay_routing [CONNECT 1 s2] quiet 2 s1 s2 "alice" hello "c1"
                eq_refl eq_refl Hne eq_refl) as (_ & Hdrop & _).
  split; [reflexivity|]. split; [reflexivity|]. split; [exact Hne|].
  split; [reflexivity|exact Hdrop].
Defined.

End PresenceMore.

(** ** Tokens *)

Section TokenFacts.

Import Stdlib.Strings.Ascii.
Import TokenUtil.

Implicit Types (sep c : ascii) (h t part : string).

Lemma split_nonempty sep h : split sep h ≠ [].
Proof.
  destruct h as [|c rest]; simpl; [done|].
  destruct (Ascii.eqb c sep); [done|]. by destruct (split sep rest).
Qed.

(** A string without the separator is its own single part. *)
Lemma split_single sep h t :
  split sep h = [t] ↔ h = t ∧ ¬ In sep (String.list_ascii_of_string h).
Proof.
  revert t. induction h as [|c rest IH]; intros t; simpl.
  { split; [by intros [= <-]; tauto|by intros [<- _]]. }
  destruct (Ascii.eqb c sep) eqn:Hc.
  - apply Ascii.eqb_eq in Hc. split.
    + intros [= _ Hrest]. by destruct (split_nonempty sep rest).
    + intros [_ Hno]. exfalso. apply Hno. by left.
  - apply Ascii.eqb_neq in Hc.
    destruct (split sep rest) as [|part parts] eqn:Hsplit.
    { by destruct (split_nonempty sep rest). }
    split.
    + intros [= <- ->]. destruct (proj1 (IH part) eq_refl) as [-> Hno].
      split; [done|]. intros [Heq|Hin]; [by apply Hc|by apply Hno].
    + intros [<- Hno].
      assert (Hrest : [part] = [rest] ∧ parts = []).
      { assert (Hr : part :: parts = [rest]).
        { apply IH. split; [done|]. intros Hin. apply Hno. by right. }
        by inversion Hr. }
      destruct Hrest as [[= ->] ->]. done.
Qed.

(** Two parts come from exactly one separator. *)
Lemma split_two sep h a b :
  split sep h = [a; b] ↔
    h = String.append a (String sep b)
    ∧ ¬ In sep (String.list_ascii_of_string a) ∧ ¬ In sep (String.list_ascii_of_string b).
Proof.
  revert a. induction h as [|c rest IH]; intros a; simpl.
  { split; [done|]. intros [Heq _]. by destruct a. }
  destruct (Ascii.eqb c sep) eqn:Hc.
  - apply Ascii.eqb_eq in Hc. subst c. split.
    + intros [= <- Hrest]. apply split_single in Hrest as [-> Hno].
      simpl. tauto.
    + intros (Heq & Ha & Hb). destruct a as [|c' a']; simpl in *.
      * injection Heq as ->. f_equal. apply split_single. tauto.
      * injection Heq as <- _. exfalso. apply Ha. by left.
  - apply Ascii.eqb_neq in Hc.
    destruct (split sep rest) as [|part parts] eqn:Hsplit.
    { by destruct (split_nonempty sep rest). }
    split.
    + intros [= <- ->]. destruct (proj1 (IH part) eq_refl) as (-> & Ha & Hb).
      simpl. split; [done|]. split; [|done].
      intros [Heq|Hin]; [by apply Hc|by apply Ha].
    + intros (Heq & Ha & Hb). destruct a as [|c' a']; simpl in *.
      * injection Heq as -> _. done.
      * injection Heq as <- ->.
        assert (Hr : part :: parts = [a'; b]).
        { apply IH. split; [done|]. split; [|done].
          intros Hin. apply Ha. by right. }
        by inversion Hr.
Qed.

(** X22: [extractTokenFromHeader] accepts exactly the headers made of the
    word Bearer, one space and a token without spaces, and returns that
    token (the empty string for the header that ends after the space); a
    missing header, an empty one and every other header give null. *)
Theorem extractTokenFromHeader_bearer h t :
  (extractTokenFromHeader (Some h) = Some t
   ↔ h = String.append "Bearer " t ∧ ¬ In " "%char (String.list_ascii_of_string t))
  ∧ extractTokenFromHeader None = None
  ∧ extractTokenFromHeader (Some EmptyString) = None.
Proof.
  split; [|done]. unfold extractTokenFromHeader.
  assert (Hbearer : ¬ In " "%char (String.list_ascii_of_string "Bearer")).
  { simpl. intros Hin. repeat destruct Hin as [Hin|Hin]; done. }
  split.
  - case_bool_decide as Hempty; [done|].
    destruct (split " " h) as [|p0 [|p1 [|p2 parts]]] eqn:Hsplit; try done.
    simpl. case_bool_decide as Hp0; [|done]. simpl.
    intros [= ->]. injection Hp0 as ->.
    apply split_two in Hsplit as (-> & _ & Ht). done.
  - intros [-> Ht].
    rewrite bool_decide_eq_false_2 by done.
    assert (Hsplit : split " " (String.append "Bearer " t) = ["Bearer"%string; t]).
    { apply split_two. done. }
    rewrite Hsplit. done.
Qed.

Lemma extractTokenFromHeader_bearer_witness :
  extractTokenFromHeader (Some "Bearer abc.def.ghi"%string) = Some "abc.def.ghi"%string
  ∧ "Bearer abc.def.ghi"%string = String.append "Bearer " "abc.def.ghi".
Proof.
  pose proof (proj1 (proj1 (extractTokenFromHeader_bearer
    "Bearer abc.def.ghi" "abc.def.ghi")) eq_refl) as [Heq _].
  split; [reflexivity|exact Heq].
Defined.

End TokenFacts.

(** ** Stored messages and their stamps *)

Section StoredMessages.

Import Message.

Implicit Types (d : Stored) (this : Message).

(** [markAsRead] on a stored message that is still sent: the paths are
    those of [markAsRead_not_read], and the save stamps [updatedAt]. *)
Lemma runStored_markAsRead_sent now hookNow stampNow d :
  status (paths d) = SENT →
  (runStored (MarkAsRead now hookNow) stampNow d).1 =
    {| paths := set_readAt (Some hookNow) (set_status READ (paths d));
       createdAt := createdAt d;
       updatedAt := stampNow |}.
Proof.
  intros Hst. unfold runStored, run.
  rewrite markAsRead_not_read by (by rewrite Hst). cbn [fst snd].
  unfold isModified. rewrite bool_decide_eq_false_2; [done|].
  intros Heq. apply (f_equal status) in Heq. simpl in Heq. congruence.
Qed.

(** C10, as stated, fails: [markAsRead] on a sent message saves it, and the
    save rewrites [updatedAt], a field other than [status] and [readAt]. *)
Lemma markAsRead_restamps_updatedAt :
  let d := {| paths := fresh "m1" "alice" "bob" "c1" "hi";
              createdAt := 1; updatedAt := 1 |} in
  let after := (runStored (MarkAsRead 10 11) 10 d).1 in
  status (paths d) = SENT
  ∧ updatedAt d = 1
  ∧ updatedAt after = 10
  ∧ updatedAt after ≠ updatedAt d.
Proof. repeat split; done. Qed.

(** C10, amended: on a stored message that is still sent, [markAsRead] sets
    the status to read, stamps [readAt], and the save restamps [updatedAt];
    [deliveredAt], [createdAt] and every other field keep their values, so
    a message that was never delivered is read with no [deliveredAt]. *)
Theorem markAsRead_from_sent_stamped now hookNow stampNow d :
  status (paths d) = SENT →
  let after := (runStored (MarkAsRead now hookNow) stampNow d).1 in
  status (paths after) = READ
  ∧ readAt (paths after) = Some hookNow
  ∧ updatedAt after = stampNow
  ∧ deliveredAt (paths after) = deliveredAt (paths d)
  ∧ createdAt after = createdAt d
  ∧ _id (paths after) = _id (paths d)
  ∧ senderId (paths after) = senderId (paths d)
  ∧ receiverId (paths after) = receiverId (paths d)
  ∧ conversationId (paths after) = conversationId (paths d)
  ∧ content (paths after) = content (paths d)
  ∧ messageType (paths after) = messageType (paths d)
  ∧ imageUrl (paths after) = imageUrl (paths d)
  ∧ fileUrl (paths after) = fileUrl (paths d)
  ∧ fileMetadata (paths after) = fileMetadata (paths d)
  ∧ isDeleted (paths after) = isDeleted (paths d)
  ∧ isEdited (paths after) = isEdited (paths d)
  ∧ editedAt (paths after) = editedAt (paths d)
  ∧ replyTo (paths after) = replyTo (paths d)
  ∧ reactions (paths after) = reactions (paths d).
Proof.
  intros Hst after. subst after.
  rewrite runStored_markAsRead_sent by done. simpl. repeat split.
Qed.

Lemma markAsRead_from_sent_stamped_witness :
  let d := {| paths := fresh "m1" "alice" "bob" "c1" "hi";
              createdAt := 1; updatedAt := 1 |} in
  let after := (runStored (MarkAsRead 10 11) 10 d).1 in
  status (paths d) = SENT
  ∧ status (paths after) = READ
  ∧ readAt (paths after) = Some 11
  ∧ updatedAt after = 10
  ∧ deliveredAt (paths after) = None.
Proof.
  intros d after.
  pose proof (markAsRead_from_sent_stamped 10 11 10 d eq_refl)
    as (H1 & H2 & H3 & H4 & _).
  split; [reflexivity|]. split; [exact H1|]. split; [exact H2|].
  split; [exact H3|exact H4].
Defined.

End StoredMessages.
